(** * The deferred Notifier of coc-explorer, embedded in Rocq

    The source is one TypeScript class, [Notifier]: an object holding a
    mutable array [notifyFns] of zero-argument callbacks, with
    [create], [concat], [combine], [notify], [notifyAll], [run] and [runAll].

    Modelling choices, all read off the source:
    - Notifier instances are mutable objects compared by identity, so they
      live in a store (a [gmap] from locations to their [notifyFns] array)
      and every operation is a computation over that store.  Two variables
      may hold the same location: aliasing is part of the model.
    - The host ([workspace.nvim]) is observed through a chronological trace
      of events: the two batching calls, the remote calls callbacks make,
      and one marker per callback invocation.
    - A callback is an opaque closure: what it sends to the host and whether
      it throws may depend on everything that happened before (the trace).
      Callbacks are assumed not to reach back into the Notifier store.
    - A promise is represented by its eventual settlement (fulfilled,
      rejected, or never settled) and the time at which it settles.
    - Computations return normally, throw, or never complete. *)

From stdpp Require Import gmap strings list fin_maps.

Module Notifier.

(** ** Data *)

Abbreviation loc := nat (only parsing).
Abbreviation exn := string (only parsing).

(** What the outside world can observe. *)
Inductive event : Type :=
  | EPause                      (* workspace.nvim.pauseNotification() *)
  | EResume                     (* workspace.nvim.resumeNotification() *)
  | ERemote (call : string)     (* a remote call made by a callback *)
  | EInvoke (fn : string).      (* a callback starts executing *)

Global Instance event_eq_dec : EqDecision event.
Proof. solve_decision. Defined.

(** [() => void]: a named closure.  Given the history so far it makes some
    remote calls and then either returns or throws. *)
Record callback : Type := Callback {
  cb_name : string;
  cb_body : list event → list string * option exn
}.

(** [type NotifierCell = Notifier | void | undefined | null] *)
Inductive cell : Type :=
  | CNull
  | CUndefined
  | CNotifier (n : loc).

(** How a [Promise<NotifierCell>] ends. *)
Inductive settlement : Type :=
  | Fulfils (c : cell)
  | Rejects (e : exn)
  | Pends.

(** [NotifierCell | Promise<NotifierCell>]; a promise settles at time [t]. *)
Inductive pcell : Type :=
  | Now (c : cell)
  | Later (t : nat) (s : settlement).

Record world : Type := World {
  store : gmap loc (list callback);
  trace : list event
}.

(** [n.notifyFns] *)
Definition notifyFns (w : world) (n : loc) : list callback :=
  default [] (store w !! n).

(** ** Computations *)

Inductive outcome (A : Type) : Type :=
  | Ret (a : A)
  | Throw (e : exn)
  | Hang.
Arguments Ret {A} a.
Arguments Throw {A} e.
Arguments Hang {A}.

Definition M (A : Type) : Type := world → outcome A * world.

Definition ret {A} (a : A) : M A := λ w, (Ret a, w).

Definition bind {A B} (m : M A) (k : A → M B) : M B := λ w,
  match m w with
  | (Ret a, w') => k a w'
  | (Throw e, w') => (Throw e, w')
  | (Hang, w') => (Hang, w')
  end.

Notation "'let!' x ':=' m 'in' k" := (bind m (λ x, k))
  (at level 10, x name, m at level 100, k at level 200).
Notation "m1 >> m2" := (bind m1 (λ _, m2))
  (at level 62, right associativity).

(** [await p] for a promise whose settlement is already determined. *)
Definition await {A} (o : outcome A) : M A := λ w, (o, w).

(** [for (const x of l) body(x)] *)
Fixpoint for_of {A} (body : A → M unit) (l : list A) : M unit :=
  match l with
  | [] => ret tt
  | x :: l' => body x >> for_of body l'
  end.

(** [l.reduce(f, init)] *)
Fixpoint reduce {A B} (f : B → A → M B) (l : list A) (init : B) : M B :=
  match l with
  | [] => ret init
  | x :: l' => let! acc := f init x in reduce f l' acc
  end.

(** ** The host *)

Definition emit (e : event) : M unit := λ w,
  (Ret tt, World (store w) (trace w ++ [e])).

Definition pauseNotification : M unit := emit EPause.
Definition resumeNotification : M unit := emit EResume.

(** [fn()] *)
Definition call (fn : callback) : M unit := λ w,
  let '(remote, thrown) := cb_body fn (trace w) in
  let w' := World (store w)
                  (trace w ++ EInvoke (cb_name fn) :: (ERemote <$> remote)) in
  (match thrown with None => Ret tt | Some e => Throw e end, w').

(** ** Promise.all *)

(** The rejection that settles first; among equal times the earlier entry. *)
Fixpoint first_rejection (ps : list pcell) : option (nat * exn) :=
  match ps with
  | [] => None
  | Later t (Rejects e) :: ps' =>
      match first_rejection ps' with
      | Some (t', e') => if t' <? t then Some (t', e') else Some (t, e)
      | None => Some (t, e)
      end
  | _ :: ps' => first_rejection ps'
  end.

(** The value an entry resolves to, if it does. *)
Definition resolved (p : pcell) : option cell :=
  match p with
  | Now c => Some c
  | Later _ (Fulfils c) => Some c
  | Later _ _ => None
  end.

(** All values in input order, when every entry resolves. *)
Fixpoint fulfilled (ps : list pcell) : option (list cell) :=
  match ps with
  | [] => Some []
  | p :: ps' =>
      match resolved p, fulfilled ps' with
      | Some c, Some cs => Some (c :: cs)
      | _, _ => None
      end
  end.

Definition promise_all (ps : list pcell) : outcome (list cell) :=
  match first_rejection ps with
  | Some (_, e) => Throw e
  | None =>
      match fulfilled ps with
      | Some cs => Ret cs
      | None => Hang
      end
  end.

(** ** lodash [compact]: keeps the truthy entries. *)
Fixpoint compact (cs : list cell) : list loc :=
  match cs with
  | [] => []
  | CNotifier n :: cs' => n :: compact cs'
  | _ :: cs' => compact cs'
  end.

(** ** The class *)

(** [() => {}] *)
Definition noop : callback := Callback "noop" (λ _, ([], None)).

(** [static create(notify)]: a new object whose [notifyFns], initialised to
    the empty array, receives [notify] in the constructor. *)
Definition create (notify : callback) : M loc := λ w,
  let this := fresh (dom (store w)) in
  (Ret this, World (<[this := [] ++ [notify]]> (store w)) (trace w)).

(** [notify()] *)
Definition notify (this : loc) : M unit := λ w,
  for_of call (notifyFns w this) w.

(** [concat(notifier)]: the spread argument is read before [push] runs. *)
Definition concat (this notifier : loc) : M loc := λ w,
  let args := notifyFns w notifier in
  (Ret this, World (<[this := notifyFns w this ++ args]> (store w)) (trace w)).

(** [static notifyAll(lazyNotifies)] *)
Definition notifyAll (lazyNotifies : list cell) : M unit :=
  for_of (λ n, match n with
               | CNotifier n => notify n
               | _ => ret tt
               end) lazyNotifies.

(** [static async runAll(notifierPromises)] *)
Definition runAll (notifierPromises : list pcell) : M unit :=
  let! notifiers := await (promise_all notifierPromises) in
  pauseNotification >>
  notifyAll notifiers >>
  resumeNotification.

(** [async run()] *)
Definition run (this : loc) : M unit := runAll [Now (CNotifier this)].

(** [static async run(notifierPromise)] *)
Definition run_static (notifierPromise : pcell) : M unit :=
  match notifierPromise with
  | Now (CNotifier n) => run n
  | Now _ => ret tt
  | Later _ s =>
      let! lazy := await (match s with
                          | Fulfils c => Ret c
                          | Rejects e => Throw e
                          | Pends => Hang
                          end) in
      match lazy with
      | CNotifier n => run n
      | _ => ret tt
      end
  end.

(** [static combine(notifiers)] *)
Definition combine (notifiers : list cell) : M loc :=
  let safeNotifiers := compact notifiers in
  match safeNotifiers with
  | [] => create noop                         (* length < 1 *)
  | [n] => ret n                              (* length === 1 *)
  | first :: rest =>                          (* slice(1).reduce(.., [0]) *)
      reduce (λ ret cur, concat ret cur) rest first
  end.

(** ** Reading a trace *)

(** Names of the callbacks that ran, in order. *)
Fixpoint invoked (tr : list event) : list string :=
  match tr with
  | [] => []
  | EInvoke fn :: tr' => fn :: invoked tr'
  | _ :: tr' => invoked tr'
  end.

(** What reached the host, in order. *)
Fixpoint host_calls (tr : list event) : list event :=
  match tr with
  | [] => []
  | EInvoke _ :: tr' => host_calls tr'
  | e :: tr' => e :: host_calls tr'
  end.

Definition pauses (tr : list event) : nat := length (filter (EPause =.) tr).
Definition resumes (tr : list event) : nat := length (filter (EResume =.) tr).

(** Is the batching window open after [tr], given it was [open] before? *)
Fixpoint window (open : bool) (tr : list event) : bool :=
  match tr with
  | [] => open
  | EPause :: tr' => window true tr'
  | EResume :: tr' => window false tr'
  | _ :: tr' => window open tr'
  end.

(** Events produced by callbacks only. *)
Definition from_callback (e : event) : bool :=
  match e with
  | EPause | EResume => false
  | _ => true
  end.

(** How often a callback name occurs in a list of invocations. *)
Definition times (name : string) (l : list string) : nat :=
  length (filter (name =.) l).

(** Every allocated Notifier holds at least one callback. *)
Definition store_ok (w : world) : Prop :=
  ∀ n fns, store w !! n = Some fns → fns ≠ [].

(** A callback that returns normally whatever happened before. *)
Definition quiet (fn : callback) : Prop := ∀ tr, (cb_body fn tr).2 = None.

(** ** Concrete callbacks used in examples *)

Definition say (name : string) : callback :=
  Callback name (λ _, ([name], None)).
Definition boom (name : string) : callback :=
  Callback name (λ _, ([], Some "boom")).

Definition w_empty : world := World ∅ [].
Definition w_boom : world := World (<[0 := [boom "f"]]> ∅) [].
Definition w_abort : world :=
  World (<[0 := [say "a"; boom "f"; say "c"]]> ∅) [].
Definition w_abc : world :=
  World (<[2 := [say "c"]]> (<[1 := [say "b"]]> (<[0 := [say "a"]]> ∅))) [].


(** An immediate Notifier, a promise of an absent value, a promise of a
    Notifier. *)
Definition ps_mixed : list pcell :=
  [Now (CNotifier 0); Later 1 (Fulfils CNull); Later 0 (Fulfils (CNotifier 2))].

(** Two rejecting promises among a Notifier and a promise that never settles. *)
Definition ps_rejecting : list pcell :=
  [Now (CNotifier 0); Later 3 (Rejects "late"); Later 1 Pends;
   Later 2 (Rejects "early")].

End Notifier.

(** * The documentation generator, [scripts/gen_doc.ts]

    The script reads the configuration schema of [package.json], turns each
    property into a row, prints the rows as markdown lines and splices them
    into the section of [readme.md] that follows a given header.

    What the script takes from its runtime is a parameter here: the regular
    expression engine ([new RegExp(p).test(line)]), [JSON.stringify], the
    string conversion of template literals, and the contents of
    [package.json].  The file system is a finite map from paths to contents;
    reading a missing file fails, writing replaces the contents. *)

Module GenDoc.

Inductive error : Type :=
  | ENOENT (path : string)              (* fsp.readFile on a missing file *)
  | RangeError                          (* '#'.repeat of a negative count *)
  | SyntaxError (pattern : string)      (* new RegExp on an invalid pattern *)
  | TypeError                           (* reading a property of undefined *)
  | NotSupported (property : string).   (* the Error thrown by genType *)

Inductive result (A : Type) : Type :=
  | Ok (a : A)
  | Err (e : error).
Arguments Ok {A} a.
Arguments Err {A} e.

#[local] Set Warnings "-register-all".

(** [JSONSchema7Type]: a JSON value (numbers restricted to integers). *)
Inductive json : Type :=
  | JNull
  | JBool (b : bool)
  | JNum (n : Z)
  | JStr (s : string)
  | JArr (l : list json)
  | JObj (l : list (string * json)).

(** The same outcome, reported for another property name. *)
Definition for_property {A} (property : string) (r : result A) : result A :=
  match r with
  | Err (NotSupported _) => Err (NotSupported property)
  | _ => r
  end.

(** JavaScript truthiness of a JSON value. *)
Definition truthy (j : json) : bool :=
  match j with
  | JNull => false
  | JBool b => b
  | JNum n => negb (n =? 0)%Z
  | JStr s => negb (String.eqb s "")
  | JArr _ | JObj _ => true
  end.

(** [type Row] *)
Record Row : Type := mkRow {
  row_key : string;
  row_description : string;
  row_type : option json;
  row_default : option json
}.

(** The [type] field of a schema: one type name or an array of them. *)
Inductive type_field : Type :=
  | TName (name : string)
  | TNames (names : list string).

(** The [items] field as [genType] meets it after its cast: missing, a
    schema object, or some other value (a boolean or an array). *)
Inductive items_of (D : Type) : Type :=
  | ItemsUndefined
  | ItemsDef (d : D)
  | ItemsOther.
Arguments ItemsUndefined {D}.
Arguments ItemsDef {D} d.
Arguments ItemsOther {D}.

(** [type Definition = JSONSchema7], with the fields the script reads. *)
Inductive definition : Type := Def {
  d_enum : option (list json);
  d_type : option type_field;
  d_items : items_of definition;
  d_anyOf : option (list definition);
  d_description : option string;
  d_default_doc : option json;
  d_default : option json
}.

(** ** Strings and arrays *)

Definition nl : string := String (Ascii.ascii_of_nat 10) EmptyString.
Definition dquote : string := String (Ascii.ascii_of_nat 34) EmptyString.

(** [s.split('\n')] *)
Fixpoint split (s : string) : list string :=
  match s with
  | EmptyString => [EmptyString]
  | String c s' =>
      if Ascii.eqb c (Ascii.ascii_of_nat 10) then EmptyString :: split s'
      else match split s' with
           | l :: ls => String c l :: ls
           | [] => [String c EmptyString]
           end
  end.

(** A string without a line break. *)
Fixpoint one_line (s : string) : bool :=
  match s with
  | EmptyString => true
  | String c s' => negb (Ascii.eqb c (Ascii.ascii_of_nat 10)) && one_line s'
  end.

(** [l.join(sep)] *)
Fixpoint join (sep : string) (l : list string) : string :=
  match l with
  | [] => EmptyString
  | x :: l' =>
      match l' with
      | [] => x
      | _ => x +:+ sep +:+ join sep l'
      end
  end.

(** ['#'.repeat(n)] for a count that is already a natural number. *)
Fixpoint hashes (n : nat) : string :=
  match n with
  | O => EmptyString
  | S n' => "#" +:+ hashes n'
  end.

(** ['#'.repeat(headLevel)] *)
Definition repeat_hash (headLevel : Z) : result string :=
  if (headLevel <? 0)%Z then Err RangeError
  else Ok (hashes (Z.to_nat headLevel)).

(** [l.findIndex(p)], with [None] for [-1]. *)
Fixpoint findIndex {A} (p : A → bool) (l : list A) : option nat :=
  match l with
  | [] => None
  | x :: l' => if p x then Some 0 else S <$> findIndex p l'
  end.

(** [l.map(f)] for an [f] that may throw: the first failure ends the map. *)
Definition traverse {A B} (f : A → result B) : list A → result (list B) :=
  fix go (l : list A) : result (list B) :=
    match l with
    | [] => Ok []
    | x :: l' =>
        match f x with
        | Err e => Err e
        | Ok y =>
            match go l' with
            | Err e => Err e
            | Ok ys => Ok (y :: ys)
            end
        end
    end.

(** [l.splice(start, deleteCount, ...items)], as the array it leaves. *)
Definition splice {A} (start deleteCount : nat) (items l : list A) : list A :=
  take start l ++ items ++ drop (start + deleteCount) l.

Definition hint : string :=
  "<!-- Generated by 'yarn run gen:doc', please don't edit it directly -->".
Definition ignorePrettier : string := "<!-- prettier-ignore -->".

Section Runtime.

(** [new RegExp(pattern)]: [None] when the pattern is rejected, else the
    [test] function of the expression. *)
Variable regexp : string → option (string → bool).
(** [JSON.stringify(obj, undefined, indent)] *)
Variable stringify : json → option string → string.
(** The string a template literal makes of a JSON value. *)
Variable to_string : json → string.

(** [l.findIndex(line => new RegExp(pattern).test(line))]: the expression is
    built when the callback runs, so not at all on an empty array. *)
Definition findIndex_re (pattern : result string) (l : list string)
  : result (option nat) :=
  match l with
  | [] => Ok None
  | _ =>
      match pattern with
      | Err e => Err e
      | Ok pat =>
          match regexp pat with
          | None => Err (SyntaxError pat)
          | Some test => Ok (findIndex test l)
          end
      end
  end.

(** [function printJson(obj, format = false)] *)
Definition printJson (obj : json) (format : bool) : string :=
  stringify obj (if format then Some "  " else None).

(** The four lines [printAsDetails] pushes for one row. *)
Definition details_of (row : Row) : list string :=
  [ "<details>";
    "<summary><code>" +:+ row_key row +:+ "</code>: " +:+ row_description row
      +:+ ". type: <code>"
      +:+ match row_type row with
          | Some t => to_string t
          | None => "undefined"
          end
      +:+ "</code></summary>";
    match row_default row with
    | Some d =>
        EmptyString +:+ "Default: "
          +:+ ("<pre><code>" +:+ printJson d true +:+ "</code></pre>")
    | None => EmptyString
    end;
    "</details>" ].

(** [function printAsDetails(rows)] *)
Definition printAsDetails (rows : list Row) : list string :=
  fold_left (λ lines row, lines ++ details_of row) rows
            [EmptyString; hint; ignorePrettier]
  ++ [EmptyString].

(** [function genType(property, def)] *)
Fixpoint genType (property : string) (def : definition) {struct def}
  : result string :=
  match d_enum def with
  | Some enum =>
      Ok (join " | " (map (λ e, dquote +:+ to_string e +:+ dquote) enum))
  | None =>
      let after_type :=
        match d_anyOf def with
        | Some anyOf =>
            match traverse (genType property) anyOf with
            | Err e => Err e
            | Ok ts => Ok (join " | " ts)
            end
        | None => Err (NotSupported property)
        end in
      match d_type def with
      | Some (TNames names) => Ok (join " | " names)
      | Some (TName name) =>
          if String.eqb name "" then after_type
          else if String.eqb name "array" then
            match d_items def with
            | ItemsDef items => genType property items
            | ItemsUndefined => Err TypeError
            | ItemsOther => Err (NotSupported property)
            end
          else Ok name
      | None => after_type
      end
  end.

(** What [genConfigurationDoc] stores in [row.default]. *)
Definition default_of (def : definition) : option json :=
  let from_default :=
    match d_default def with
    | Some (JStr s) =>
        Some (JStr (if String.eqb s "" then "`[empty]`" else s))
    | Some d => Some d
    | None => None
    end in
  match d_default_doc def with
  | Some doc =>
      if truthy doc then
        match doc with
        | JStr s => Some (JStr (if String.eqb s "" then "`[empty]`" else s))
        | _ => Some doc
        end
      else from_default
  | None => from_default
  end.

(** The loop of [genConfigurationDoc] over the properties still to visit. *)
Fixpoint genConfigurationDoc_from
    (conf : list (string * definition)) (rows : list Row) : result (list Row) :=
  match conf with
  | [] => Ok rows
  | (property, def) :: conf' =>
      match genType property def with
      | Err e => Err e
      | Ok t =>
          let row := mkRow property (default EmptyString (d_description def))
                           (Some (JStr t)) (default_of def) in
          genConfigurationDoc_from conf' (rows ++ [row])
      end
  end.

(** [function genConfigurationDoc()], over the [properties] of
    [Pkg.contributes.configuration] in enumeration order. *)
Definition genConfigurationDoc (conf : list (string * definition))
  : result (list Row) :=
  genConfigurationDoc_from conf [].

(** [async function attach(headLevel, attachTitle, markdownPath, rows)] *)
Definition attach (headLevel : Z) (attachTitle markdownPath : string)
    (rows : list Row) (fs : gmap string string)
  : result unit * gmap string string :=
  match fs !! markdownPath with
  | None => (Err (ENOENT markdownPath), fs)
  | Some markdown =>
      let markdownLines := split markdown in
      let start_pattern :=
        match repeat_hash headLevel with
        | Err e => Err e
        | Ok h => Ok (h +:+ "\s*" +:+ attachTitle +:+ "\s*")
        end in
      match findIndex_re start_pattern markdownLines with
      | Err e => (Err e, fs)
      | Ok None => (Ok tt, fs)
      | Ok (Some found) =>
          let startIndex := found + 1 in
          let end_pattern :=
            match repeat_hash headLevel with
            | Err e => Err e
            | Ok h => Ok (h +:+ "[^#]")
            end in
          match findIndex_re end_pattern (drop startIndex markdownLines) with
          | Err e => (Err e, fs)
          | Ok endIndex =>
              let removeCount := default 0 endIndex in
              let lines := printAsDetails rows in
              (Ok tt,
               <[markdownPath :=
                   join nl (splice startIndex removeCount lines markdownLines)]> fs)
          end
      end
  end.

(** [async function main()], before its rejection is caught and logged. *)
Definition main (conf : list (string * definition)) (fs : gmap string string)
  : result unit * gmap string string :=
  match genConfigurationDoc conf with
  | Err e => (Err e, fs)
  | Ok rows => attach 2 "Configuration" "readme.md" rows fs
  end.

End Runtime.

(** ** Stand-ins for examples *)

(** An engine that knows the two patterns [main] builds, on plain headers. *)
Definition toy_regexp (pattern : string) : option (string → bool) :=
  if String.eqb pattern "##\s*Configuration\s*"
  then Some (String.prefix "## Configuration")
  else if String.eqb pattern "##[^#]"
  then Some (String.prefix "## ")
  else None.

Definition toy_stringify (obj : json) (indent : option string) : string :=
  match obj with
  | JStr s => dquote +:+ s +:+ dquote
  | _ => "null"
  end.

Definition toy_to_string (obj : json) : string :=
  match obj with
  | JStr s => s
  | _ => "null"
  end.

Definition readme_mid : string :=
  join nl ["# explorer"; "## Configuration"; "old text"; "## License"; "MIT"].
Definition readme_last : string :=
  join nl ["# explorer"; "## Configuration"; "old text"].
Definition one_row : list Row :=
  [mkRow "explorer.width" "Width" (Some (JStr "number")) None].

(** A string property with an empty default and an empty [default_doc]. *)
Definition def_string : definition :=
  Def None (Some (TName "string")) ItemsUndefined None (Some "Root")
      (Some (JStr "")) (Some (JStr "")).
(** An array whose items are one of two literals. *)
Definition def_array : definition :=
  Def None (Some (TName "array"))
      (ItemsDef (Def (Some [JStr "a"; JStr "b"]) None ItemsUndefined None
                     None None None))
      None None None None.
(** A definition [genType] has no case for. *)
Definition def_bare : definition :=
  Def None None ItemsUndefined None None None None.

End GenDoc.
Import Notifier.

(** * Running callbacks *)

Section Callbacks.

Implicit Types (w : world) (fns : list callback) (ev : list event).

Lemma world_eta w : World (store w) (trace w ++ []) = w.
Proof. destruct w; simpl. by rewrite app_nil_r. Qed.

Lemma notifyFns_store w w' n : store w = store w' → notifyFns w n = notifyFns w' n.
Proof. unfold notifyFns. by intros ->. Qed.

Lemma invoked_app ev1 ev2 : invoked (ev1 ++ ev2) = invoked ev1 ++ invoked ev2.
Proof.
  induction ev1 as [|[] ev1 IH]; simpl; try done. by rewrite IH.
Qed.

Lemma invoked_remote (calls : list string) : invoked (ERemote <$> calls) = [].
Proof. induction calls; simpl; auto. Qed.

Lemma host_calls_app ev1 ev2 :
  host_calls (ev1 ++ ev2) = host_calls ev1 ++ host_calls ev2.
Proof.
  induction ev1 as [|[] ev1 IH]; simpl; try done; by rewrite IH.
Qed.

Lemma from_callback_remote (calls : list string) :
  Forall (λ e, from_callback e = true) (ERemote <$> calls).
Proof. induction calls; simpl; constructor; auto. Qed.

Lemma for_of_app {A} (body : A → M unit) (l1 l2 : list A) w :
  for_of body (l1 ++ l2) w = (for_of body l1 >> for_of body l2) w.
Proof.
  revert w. induction l1 as [|x l1 IH]; intros w; simpl; [done|].
  unfold bind. destruct (body x w) as [[[]| |] w1]; [|done..].
  by rewrite IH.
Qed.

(** One callback: it is announced, sends its remote calls, and returns or
    throws as its body says. *)
Lemma call_spec fn w :
  call fn w =
    (match (cb_body fn (trace w)).2 with None => Ret tt | Some e => Throw e end,
     World (store w)
       (trace w ++ EInvoke (cb_name fn) :: (ERemote <$> (cb_body fn (trace w)).1))).
Proof. unfold call. by destruct (cb_body fn (trace w)). Qed.

(** Callbacks only append callback events and never touch the store. *)
Lemma for_of_call_frame fns w :
  ∃ ev, (for_of call fns w).2 = World (store w) (trace w ++ ev)
        ∧ Forall (λ e, from_callback e = true) ev.
Proof.
  revert w. induction fns as [|fn fns IH]; intros w; simpl.
  - exists []. by rewrite world_eta.
  - unfold bind. rewrite call_spec.
    set (w1 := World _ _).
    destruct (cb_body fn (trace w)).2.
    + eexists. split; [reflexivity|].
      constructor; [done|]. apply from_callback_remote.
    + destruct (IH w1) as (ev & -> & Hev). subst w1; simpl.
      eexists. rewrite <-app_assoc. split; [reflexivity|].
      apply Forall_app. split; [|done].
      constructor; [done|]. apply from_callback_remote.
Qed.

Lemma for_of_call_store fns w : store (for_of call fns w).2 = store w.
Proof. by destruct (for_of_call_frame fns w) as (ev & -> & _). Qed.

(** A loop over callbacks always finishes. *)
Lemma for_of_call_no_hang fns w : (for_of call fns w).1 ≠ Hang.
Proof.
  revert w. induction fns as [|fn fns IH]; intros w; simpl; [done|].
  unfold bind. rewrite call_spec.
  destruct (cb_body fn (trace w)).2; [done|]. apply IH.
Qed.

(** When no callback throws, all of them run, in order. *)
Lemma for_of_call_ok fns w :
  Forall quiet fns →
  ∃ ev, for_of call fns w = (Ret tt, World (store w) (trace w ++ ev))
        ∧ Forall (λ e, from_callback e = true) ev
        ∧ invoked ev = cb_name <$> fns.
Proof.
  intros Hq. revert w. induction Hq as [|fn fns Hfn _ IH]; intros w; simpl.
  - exists []. by rewrite world_eta.
  - unfold bind. rewrite call_spec, (Hfn (trace w)).
    set (w1 := World _ _).
    destruct (IH w1) as (ev & -> & Hev & Hinv). subst w1; simpl.
    eexists. rewrite <-app_assoc. split; [done|]. split.
    + apply Forall_app. split; [|done].
      constructor; [done|]. apply from_callback_remote.
    + rewrite invoked_app. simpl. by rewrite invoked_remote, Hinv.
Qed.

(** When the loop throws, the callbacks before the culprit ran, the culprit
    ran and threw, and the ones after it did not run. *)
Lemma for_of_call_throw fns w e w' :
  for_of call fns w = (Throw e, w') →
  ∃ pre fn post ev,
    fns = pre ++ fn :: post
    ∧ w' = World (store w) (trace w ++ ev)
    ∧ Forall (λ e, from_callback e = true) ev
    ∧ invoked ev = cb_name <$> (pre ++ [fn])
    ∧ ∃ tr, (cb_body fn tr).2 = Some e.
Proof.
  revert w. induction fns as [|fn fns IH]; intros w; simpl; [done|].
  unfold bind. rewrite call_spec.
  set (w1 := World _ _).
  destruct (cb_body fn (trace w)).2 as [e0|] eqn:Hb.
  - intros [= -> <-]. exists [], fn, fns. eexists. split; [done|].
    split; [done|]. split; [|split].
    + constructor; [done|]. apply from_callback_remote.
    + simpl. by rewrite invoked_remote.
    + eauto.
  - intros H. destruct (IH _ H) as (pre & f & post & ev & -> & -> & Hev & Hinv & Hthrow).
    exists (fn :: pre), f, post. eexists. split; [done|]. subst w1; simpl.
    rewrite <-app_assoc. split; [done|]. split; [|split; [|done]].
    + apply Forall_app. split; [|done].
      constructor; [done|]. apply from_callback_remote.
    + rewrite invoked_app. simpl. by rewrite invoked_remote, Hinv.
Qed.

(** [notifyAll] runs the callbacks of the present entries, in array order. *)
Lemma notifyAll_flat (ns : list cell) w :
  notifyAll ns w = for_of call (flat_map (notifyFns w) (compact ns)) w.
Proof.
  revert w. induction ns as [|[| |n] ns IH]; intros w; simpl; [done| | |].
  - exact (IH w).
  - exact (IH w).
  - rewrite for_of_app. unfold notifyAll; simpl. unfold bind, notify.
    pose proof (for_of_call_store (notifyFns w n) w) as Hst.
    destruct (for_of call (notifyFns w n) w) as [[[]| |] w1]; [|done..].
    simpl in Hst. fold (notifyAll ns). rewrite IH.
    f_equal. apply flat_map_ext. intros m. by apply notifyFns_store.
Qed.

End Callbacks.

(** * Promise.all *)

Section Promises.

Implicit Types (ps : list pcell) (w : world).

Lemma first_rejection_is_Some ps t e :
  Later t (Rejects e) ∈ ps → is_Some (first_rejection ps).
Proof.
  induction ps as [|p ps IH]; [by intros ?%elem_of_nil|].
  intros [<-|Hin]%elem_of_cons; simpl.
  - destruct (first_rejection ps) as [[t' e']|]; [|by eauto].
    destruct (t' <? t); eauto.
  - specialize (IH Hin). destruct IH as [[t' e'] Hfr].
    destruct p as [|t0 []]; rewrite ?Hfr; eauto.
    destruct (t' <? t0); eauto.
Qed.

(** The rejection [Promise.all] reports belongs to an entry of the input, and
    no entry rejects earlier. *)
Lemma first_rejection_least ps t' e' :
  first_rejection ps = Some (t', e') →
  Later t' (Rejects e') ∈ ps
  ∧ ∀ t e, Later t (Rejects e) ∈ ps → t' ≤ t.
Proof.
  revert t' e'. induction ps as [|p ps IH]; intros t' e'; simpl; [done|].
  destruct p as [c|t0 [c|e0|]]; try (intros [Hin Hle]%IH; split;
    [by right | intros t e [[=]|?]%elem_of_cons; eauto]).
  destruct (first_rejection ps) as [[t1 e1]|] eqn:Hfr.
  - destruct (IH _ _ eq_refl) as [Hin Hle].
    destruct (t1 <? t0) eqn:Hlt.
    + apply Nat.ltb_lt in Hlt. intros [= <- <-]. split; [by right|].
      intros t e [[= -> ->]|?]%elem_of_cons; [lia|eauto].
    + apply Nat.ltb_ge in Hlt. intros [= <- <-]. split; [by left|].
      intros t e [[= -> ->]|Hin']%elem_of_cons; [lia|].
      specialize (Hle _ _ Hin'). lia.
  - intros [= <- <-]. split; [by left|].
    intros t e [[= -> ->]|Hin']%elem_of_cons; [lia|].
    apply first_rejection_is_Some in Hin'. rewrite Hfr in Hin'.
    by destruct Hin'.
Qed.

Lemma first_rejection_resolved ps :
  Forall (λ p, is_Some (resolved p)) ps → first_rejection ps = None.
Proof.
  induction 1 as [|p ps [c Hp] _ IH]; simpl; [done|].
  by destruct p as [|t []].
Qed.

Lemma fulfilled_resolved ps :
  Forall (λ p, is_Some (resolved p)) ps → fulfilled ps = Some (omap resolved ps).
Proof.
  induction 1 as [|p ps [c Hp] _ IH]; simpl; [done|].
  by rewrite Hp, IH.
Qed.

Lemma resolved_in_order ps :
  Forall (λ p, is_Some (resolved p)) ps →
  Forall2 (λ p c, resolved p = Some c) ps (omap resolved ps).
Proof.
  induction 1 as [|p ps [c Hp] _ IH]; simpl; [constructor|].
  rewrite Hp. by constructor.
Qed.

Lemma promise_all_resolved ps :
  Forall (λ p, is_Some (resolved p)) ps →
  promise_all ps = Ret (omap resolved ps).
Proof.
  intros H. unfold promise_all.
  by rewrite first_rejection_resolved, fulfilled_resolved.
Qed.

(** Once every entry has resolved, what remains of [runAll] is the window. *)
Lemma runAll_resolved ps w :
  Forall (λ p, is_Some (resolved p)) ps →
  runAll ps w =
    (pauseNotification >> notifyAll (omap resolved ps) >> resumeNotification) w.
Proof.
  intros H. unfold runAll. unfold bind at 1. unfold await.
  by rewrite promise_all_resolved.
Qed.

End Promises.

(** * Reading traces made of callback events *)

Section Traces.

Implicit Types (ev : list event).

Lemma pauses_callback ev :
  Forall (λ e, from_callback e = true) ev → pauses ev = 0.
Proof.
  unfold pauses. induction 1 as [|e ev He _ IH]; [done|].
  rewrite filter_cons. destruct (decide (EPause = e)) as [<-|]; [done|exact IH].
Qed.

Lemma resumes_callback ev :
  Forall (λ e, from_callback e = true) ev → resumes ev = 0.
Proof.
  unfold resumes. induction 1 as [|e ev He _ IH]; [done|].
  rewrite filter_cons. destruct (decide (EResume = e)) as [<-|]; [done|exact IH].
Qed.

Lemma pauses_app ev1 ev2 : pauses (ev1 ++ ev2) = pauses ev1 + pauses ev2.
Proof. unfold pauses. by rewrite filter_app, length_app. Qed.

Lemma resumes_app ev1 ev2 : resumes (ev1 ++ ev2) = resumes ev1 + resumes ev2.
Proof. unfold resumes. by rewrite filter_app, length_app. Qed.

Lemma window_app open ev1 ev2 :
  window open (ev1 ++ ev2) = window (window open ev1) ev2.
Proof. revert open. induction ev1 as [|[] ev1 IH]; intros open; simpl; auto. Qed.

Lemma window_callback open ev :
  Forall (λ e, from_callback e = true) ev → window open ev = open.
Proof. induction 1 as [|[] ev He _ IH]; simpl; auto; done. Qed.

Lemma times_app name (l1 l2 : list string) :
  times name (l1 ++ l2) = times name l1 + times name l2.
Proof. unfold times. by rewrite filter_app, length_app. Qed.

End Traces.

(** * The batching protocol: [runAll] and [run] *)

Section Batching.

Implicit Types (ps : list pcell) (w : world).

(** The window around a loop that returns normally. *)
Lemma window_ok (ns : list cell) w :
  Forall quiet (flat_map (notifyFns w) (compact ns)) →
  ∃ mid,
    (pauseNotification >> notifyAll ns >> resumeNotification) w
      = (Ret tt, World (store w) (trace w ++ EPause :: mid ++ [EResume]))
    ∧ notifyAll ns (World (store w) (trace w ++ [EPause]))
      = (Ret tt, World (store w) (trace w ++ EPause :: mid))
    ∧ Forall (λ e, from_callback e = true) mid
    ∧ invoked mid = cb_name <$> flat_map (notifyFns w) (compact ns).
Proof.
  intros Hq. unfold bind, pauseNotification, resumeNotification, emit; simpl.
  set (w1 := World (store w) (trace w ++ [EPause])).
  rewrite notifyAll_flat.
  assert (Hfl : flat_map (notifyFns w1) (compact ns)
                = flat_map (notifyFns w) (compact ns))
    by (apply flat_map_ext; intros; by apply notifyFns_store).
  rewrite Hfl.
  destruct (for_of_call_ok _ w1 Hq) as (mid & -> & Hmid & Hinv).
  exists mid. subst w1; simpl. rewrite <-!app_assoc. simpl. done.
Qed.

(** The window around a loop that throws: [resumeNotification] is skipped. *)
Lemma window_throw (ns : list cell) w e w' :
  (pauseNotification >> notifyAll ns >> resumeNotification) w = (Throw e, w') →
  ∃ pre fn post mid,
    flat_map (notifyFns w) (compact ns) = pre ++ fn :: post
    ∧ (∃ tr, (cb_body fn tr).2 = Some e)
    ∧ w' = World (store w) (trace w ++ EPause :: mid)
    ∧ Forall (λ e, from_callback e = true) mid
    ∧ invoked mid = cb_name <$> (pre ++ [fn]).
Proof.
  unfold bind, pauseNotification, resumeNotification, emit; simpl.
  set (w1 := World (store w) (trace w ++ [EPause])).
  rewrite notifyAll_flat.
  assert (Hfl : flat_map (notifyFns w1) (compact ns)
                = flat_map (notifyFns w) (compact ns))
    by (apply flat_map_ext; intros; by apply notifyFns_store).
  rewrite Hfl.
  destruct (for_of call _ w1) as [[[]|e1|] w2] eqn:Hloop; [done| |done].
  intros [= -> ->].
  destruct (for_of_call_throw _ _ _ _ Hloop)
    as (pre & fn & post & mid & Hsplit & -> & Hmid & Hinv & Hthrow).
  exists pre, fn, post, mid. subst w1; simpl. rewrite <-app_assoc. done.
Qed.

End Batching.

(** C3: for a non-empty input whose entries all resolve and whose callbacks
    never throw, [runAll] first resolves every entry (in input order), then
    calls [pauseNotification] once, runs the callbacks of every present
    resolved Notifier in array order (absent slots skipped), then calls
    [resumeNotification] once, and returns normally. *)
Theorem C3_runAll_one_window (ps : list pcell) (w : world) :
  ps ≠ [] →
  Forall (λ p, is_Some (resolved p)) ps →
  (∀ n fn, n ∈ compact (omap resolved ps) → fn ∈ notifyFns w n → quiet fn) →
  let ns := omap resolved ps in
  Forall2 (λ p c, resolved p = Some c) ps ns
  ∧ runAll ps w = (pauseNotification >> notifyAll ns >> resumeNotification) w
  ∧ ∃ mid,
      runAll ps w
        = (Ret tt, World (store w) (trace w ++ EPause :: mid ++ [EResume]))
      ∧ notifyAll ns (World (store w) (trace w ++ [EPause]))
        = (Ret tt, World (store w) (trace w ++ EPause :: mid))
      ∧ Forall (λ e, from_callback e = true) mid
      ∧ invoked mid = cb_name <$> flat_map (notifyFns w) (compact ns)
      ∧ pauses (EPause :: mid ++ [EResume]) = 1
      ∧ resumes (EPause :: mid ++ [EResume]) = 1.
Proof.
  intros _ Hres Hquiet ns.
  split; [by apply resolved_in_order|].
  split; [by apply runAll_resolved|].
  rewrite runAll_resolved by done.
  destruct (window_ok ns w) as (mid & Hrun & Hloop & Hmid & Hinv).
  { apply Forall_forall. intros fn (n & Hn & Hfn)%list_elem_of_In%in_flat_map.
    apply (Hquiet n); by apply list_elem_of_In. }
  exists mid. repeat split; try done.
  - change (EPause :: mid ++ [EResume]) with ([EPause] ++ mid ++ [EResume]).
    rewrite !pauses_app, (pauses_callback mid) by done. reflexivity.
  - change (EPause :: mid ++ [EResume]) with ([EPause] ++ mid ++ [EResume]).
    rewrite !resumes_app, (resumes_callback mid) by done. reflexivity.
Qed.

Lemma C3_runAll_one_window_witness :
  ps_mixed ≠ []
  ∧ Forall (λ p, is_Some (resolved p)) ps_mixed
  ∧ ∃ mid,
      runAll ps_mixed w_abc
        = (Ret tt, World (store w_abc) (trace w_abc ++ EPause :: mid ++ [EResume]))
      ∧ invoked mid = ["a"; "c"].
Proof.
  assert (Hres : Forall (λ p, is_Some (resolved p)) ps_mixed)
    by (repeat constructor; simpl; eauto).
  split; [discriminate|]. split; [exact Hres|].
  destruct (C3_runAll_one_window ps_mixed w_abc) as (_ & _ & mid & Hrun & _ & _ & Hinv & _).
  - discriminate.
  - exact Hres.
  - intros n fn Hn Hfn. simpl in Hn.
    apply elem_of_cons in Hn as [->|Hn];
      [|apply elem_of_cons in Hn as [->|Hn]; [|by apply elem_of_nil in Hn]];
      vm_compute in Hfn;
      (apply elem_of_cons in Hfn as [->|Hfn]; [|by apply elem_of_nil in Hfn]);
      intros tr; reflexivity.
  - exists mid. split; [exact Hrun|exact Hinv].
Defined.

(** C9: [runAll] of the empty list runs no callback and returns normally;
    the window is still opened and closed, once each. *)
Theorem C9_runAll_empty (w : world) :
  runAll [] w = (Ret tt, World (store w) (trace w ++ [EPause; EResume]))
  ∧ invoked [EPause; EResume] = [].
Proof.
  split; [|reflexivity].
  unfold runAll, bind, await, pauseNotification, resumeNotification, emit; simpl.
  by rewrite <-app_assoc.
Qed.

(** C2: when some deferred entry rejects, [runAll] throws a rejection reason
    of the input (the earliest one) and leaves the world exactly as it was:
    no pause, no resume, no callback, no store update.  The static [run]
    on a rejecting promise behaves the same. *)
Theorem C2_rejection_before_window (ps : list pcell) (t : nat) (e : exn) (w : world) :
  Later t (Rejects e) ∈ ps →
  (∃ t' e', Later t' (Rejects e') ∈ ps ∧ t' ≤ t ∧ runAll ps w = (Throw e', w))
  ∧ run_static (Later t (Rejects e)) w = (Throw e, w).
Proof.
  intros Hin. split; [|reflexivity].
  destruct (first_rejection_is_Some _ _ _ Hin) as [[t' e'] Hfr].
  destruct (first_rejection_least _ _ _ Hfr) as [Hin' Hle].
  exists t', e'. split; [done|]. split; [by eapply Hle|].
  unfold runAll, bind, await, promise_all. by rewrite Hfr.
Qed.

Lemma C2_rejection_before_window_witness :
  Later 3 (Rejects "late") ∈ ps_rejecting
  ∧ runAll ps_rejecting w_abc = (Throw "early", w_abc).
Proof.
  assert (Hin : Later 3 (Rejects "late") ∈ ps_rejecting) by (right; left).
  split; [exact Hin|].
  destruct (C2_rejection_before_window ps_rejecting 3 "late" w_abc Hin)
    as [(t' & e' & _ & _ & Hrun) _].
  rewrite Hrun. vm_compute in Hrun. by injection Hrun as <-.
Defined.

(** When the loop returns, every callback ran, in order. *)
Lemma for_of_call_ret (fns : list callback) (w w' : world) :
  for_of call fns w = (Ret tt, w') →
  ∃ ev, w' = World (store w) (trace w ++ ev)
        ∧ Forall (λ e, from_callback e = true) ev
        ∧ invoked ev = cb_name <$> fns.
Proof.
  revert w. induction fns as [|fn fns IH]; intros w; simpl.
  - intros [= <-]. exists []. by rewrite world_eta.
  - unfold bind. rewrite call_spec.
    destruct (cb_body fn (trace w)).2; [done|].
    intros (ev & -> & Hev & Hinv)%IH. simpl.
    eexists. rewrite <-app_assoc. split; [done|]. split.
    + apply Forall_app. split; [|done].
      constructor; [done|]. apply from_callback_remote.
    + rewrite invoked_app. simpl. by rewrite invoked_remote, Hinv.
Qed.

(** A callback that throws inside the window makes the window throw: the
    callbacks before it have returned, it throws when its turn comes, and
    [resumeNotification] is never reached. *)
Lemma window_first_throw (ns : list cell) (w w2 : world)
    (pre : list callback) (fn : callback) (post : list callback) (e : exn) :
  flat_map (notifyFns w) (compact ns) = pre ++ fn :: post →
  for_of call pre (World (store w) (trace w ++ [EPause])) = (Ret tt, w2) →
  (cb_body fn (trace w2)).2 = Some e →
  ∃ mid,
    (pauseNotification >> notifyAll ns >> resumeNotification) w
      = (Throw e, World (store w) (trace w ++ EPause :: mid))
    ∧ Forall (λ e, from_callback e = true) mid
    ∧ invoked mid = cb_name <$> (pre ++ [fn]).
Proof.
  intros Hsplit Hpre Hthrow.
  unfold bind at 1. unfold pauseNotification, emit.
  set (w1 := World (store w) (trace w ++ [EPause])) in *.
  unfold bind at 1. rewrite notifyAll_flat.
  change (flat_map (notifyFns w1) (compact ns))
    with (flat_map (notifyFns w) (compact ns)).
  rewrite Hsplit, for_of_app. unfold bind at 1. rewrite Hpre.
  simpl. unfold bind at 1. rewrite call_spec, Hthrow.
  destruct (for_of_call_ret _ _ _ Hpre) as (ev & -> & Hev & Hinv).
  subst w1; simpl.
  exists (ev ++ EInvoke (cb_name fn) :: (ERemote <$> (cb_body fn ((trace w ++ [EPause]) ++ ev)).1)).
  rewrite <-!app_assoc. split; [done|]. split.
  - apply Forall_app. split; [done|].
    constructor; [done|]. apply from_callback_remote.
  - rewrite invoked_app. simpl. by rewrite invoked_remote, Hinv, fmap_app.
Qed.

(** C1 as the code has it: nothing in [runAll] catches a callback's
    exception.  When every entry resolves and, inside the window, the
    callbacks before some callback return and that callback throws, then
    [runAll] throws that exception to its caller with [pauseNotification]
    called once and [resumeNotification] not called: the callbacks up to the
    failing one ran, the remaining ones did not, and the host is left with
    its window open.  Conversely every exception [runAll] throws on such
    inputs comes from a callback and leaves the host in that state. *)
Theorem C1_notify_failure_skips_resume (ps : list pcell) (w : world) :
  Forall (λ p, is_Some (resolved p)) ps →
  (∀ pre fn post w2 e,
     flat_map (notifyFns w) (compact (omap resolved ps)) = pre ++ fn :: post →
     for_of call pre (World (store w) (trace w ++ [EPause])) = (Ret tt, w2) →
     (cb_body fn (trace w2)).2 = Some e →
     ∃ mid,
       runAll ps w = (Throw e, World (store w) (trace w ++ EPause :: mid))
       ∧ Forall (λ e, from_callback e = true) mid
       ∧ invoked mid = cb_name <$> (pre ++ [fn])
       ∧ pauses (EPause :: mid) = 1
       ∧ resumes (EPause :: mid) = 0
       ∧ ∀ open, window open (trace w ++ EPause :: mid) = true)
  ∧ (∀ e w',
       runAll ps w = (Throw e, w') →
       ∃ pre fn post mid,
         flat_map (notifyFns w) (compact (omap resolved ps)) = pre ++ fn :: post
         ∧ (∃ tr, (cb_body fn tr).2 = Some e)
         ∧ w' = World (store w) (trace w ++ EPause :: mid)
         ∧ Forall (λ e, from_callback e = true) mid
         ∧ invoked mid = cb_name <$> (pre ++ [fn])
         ∧ pauses (EPause :: mid) = 1
         ∧ resumes (EPause :: mid) = 0
         ∧ ∀ open, window open (trace w') = true).
Proof.
  intros Hres.
  assert (Hcount : ∀ mid,
    Forall (λ e, from_callback e = true) mid →
    pauses (EPause :: mid) = 1 ∧ resumes (EPause :: mid) = 0
    ∧ ∀ open, window open (trace w ++ EPause :: mid) = true).
  { intros mid Hmid. change (EPause :: mid) with ([EPause] ++ mid).
    split; [|split].
    - rewrite pauses_app, (pauses_callback mid) by done. reflexivity.
    - rewrite resumes_app, (resumes_callback mid) by done. reflexivity.
    - intros open. rewrite window_app. simpl. by apply window_callback. }
  split.
  - intros pre fn post w2 e Hsplit Hpre Hthrow.
    rewrite runAll_resolved by done.
    destruct (window_first_throw _ _ _ _ _ _ _ Hsplit Hpre Hthrow)
      as (mid & Hrun & Hmid & Hinv).
    destruct (Hcount mid Hmid) as (Hp & Hr & Hopen).
    exists mid. by repeat split.
  - intros e w'. rewrite runAll_resolved by done.
    intros (pre & fn & post & mid & Hsplit & Hthrow & -> & Hmid & Hinv)%window_throw.
    destruct (Hcount mid Hmid) as (Hp & Hr & Hopen).
    exists pre, fn, post, mid. by repeat split.
Qed.

Lemma C1_notify_failure_skips_resume_witness :
  Forall (λ p, is_Some (resolved p)) [Now (CNotifier 0)]
  ∧ flat_map (notifyFns w_abort) (compact (omap resolved [Now (CNotifier 0)]))
    = [say "a"] ++ boom "f" :: [say "c"]
  ∧ ∃ mid,
      runAll [Now (CNotifier 0)] w_abort
      = (Throw "boom", World (store w_abort) (trace w_abort ++ EPause :: mid))
      ∧ invoked mid = ["a"; "f"]
      ∧ resumes (EPause :: mid) = 0.
Proof.
  assert (Hres : Forall (λ p, is_Some (resolved p)) [Now (CNotifier 0)])
    by (repeat constructor; simpl; eauto).
  assert (Hsplit :
    flat_map (notifyFns w_abort) (compact (omap resolved [Now (CNotifier 0)]))
    = [say "a"] ++ boom "f" :: [say "c"]) by reflexivity.
  split; [exact Hres|]. split; [exact Hsplit|].
  destruct (proj1 (C1_notify_failure_skips_resume [Now (CNotifier 0)] w_abort Hres)
              [say "a"] (boom "f") [say "c"]
              (for_of call [say "a"]
                 (World (store w_abort) (trace w_abort ++ [EPause]))).2
              "boom" Hsplit eq_refl eq_refl)
    as (mid & Hrun & _ & Hinv & _ & Hr & _).
  exists mid. split; [exact Hrun|]. split; [exact Hinv|exact Hr].
Defined.

(** C1 as stated fails: a single Notifier whose callback throws makes
    [runAll] throw after the pause, with no resume at all, so the caller
    observes the exception while the host is still paused. *)
Lemma C1_counterexample_host_left_paused :
  (runAll [Now (CNotifier 0)] w_boom).1 = Throw "boom"
  ∧ trace (runAll [Now (CNotifier 0)] w_boom).2 = [EPause; EInvoke "f"]
  ∧ resumes (trace (runAll [Now (CNotifier 0)] w_boom).2) = 0
  ∧ window false (trace (runAll [Now (CNotifier 0)] w_boom).2) = true.
Proof. vm_compute. repeat split. Qed.

(** * The store: [create], [concat], [combine] *)

Section Store.

Implicit Types (w : world) (n x y z : loc) (fns : list callback).

Lemma notifyFns_insert_eq (st : gmap loc (list callback)) tr n fns :
  notifyFns (World (<[n := fns]> st) tr) n = fns.
Proof. unfold notifyFns; simpl. by rewrite lookup_insert_eq. Qed.

Lemma notifyFns_insert_ne (st : gmap loc (list callback)) tr tr' n m fns :
  n ≠ m → notifyFns (World (<[n := fns]> st) tr) m = notifyFns (World st tr') m.
Proof. intros. unfold notifyFns; simpl. by rewrite lookup_insert_ne. Qed.

Lemma notifyFns_allocated w n fns :
  store w !! n = Some fns → notifyFns w n = fns.
Proof. unfold notifyFns. by intros ->. Qed.

Lemma compact_present (ns : list loc) : compact (CNotifier <$> ns) = ns.
Proof. induction ns as [|n ns IH]; csimpl; [done|]. by rewrite IH. Qed.

Lemma fresh_unallocated w : store w !! fresh (dom (store w)) = None.
Proof. apply not_elem_of_dom, is_fresh. Qed.

Lemma concat_receiver x y w :
  notifyFns (concat x y w).2 x = notifyFns w x ++ notifyFns w y.
Proof. apply notifyFns_insert_eq. Qed.

Lemma concat_other x y z w :
  x ≠ z → notifyFns (concat x y w).2 z = notifyFns w z.
Proof.
  intros. unfold concat; simpl. destruct w as [st tr].
  by apply notifyFns_insert_ne.
Qed.

Lemma concat_store_ok x y w :
  store_ok w → is_Some (store w !! x) → store_ok (concat x y w).2.
Proof.
  intros Hok [fx Hx] n fns. unfold concat; simpl.
  destruct (decide (x = n)) as [<-|Hne].
  - rewrite lookup_insert_eq. intros [= <-].
    rewrite (notifyFns_allocated _ _ _ Hx).
    intros [? _]%app_eq_nil. by eapply Hok.
  - rewrite lookup_insert_ne by done. apply Hok.
Qed.

Lemma create_store_ok fn w : store_ok w → store_ok (create fn w).2.
Proof.
  intros Hok n fns. unfold create; simpl.
  set (r := fresh _). destruct (decide (r = n)) as [<-|Hne].
  - rewrite lookup_insert_eq. by intros [= <-].
  - rewrite lookup_insert_ne by done. apply Hok.
Qed.

(** The fold of [combine]: it returns the first entry, which stays
    allocated and non-empty, and runs nothing. *)
Lemma reduce_concat_ok (rest : list loc) (first : loc) w :
  store_ok w → is_Some (store w !! first) →
  ∃ w', reduce (λ ret cur, concat ret cur) rest first w = (Ret first, w')
        ∧ store_ok w' ∧ is_Some (store w' !! first) ∧ trace w' = trace w.
Proof.
  revert w. induction rest as [|cur rest IH]; intros w Hok Hfirst; simpl.
  - by exists w.
  - unfold bind.
    destruct (IH (concat first cur w).2) as (w' & Hred & Hok' & Hfirst' & Htr).
    + by apply concat_store_ok.
    + unfold concat; simpl. rewrite lookup_insert_eq. eauto.
    + exists w'. by rewrite Htr.
Qed.

End Store.

(** C4: when no present entry remains, [combine] returns a newly allocated
    Notifier holding the single empty callback, without running anything;
    [notify] on it returns normally, sends nothing to the host and leaves
    the store alone. *)
Theorem C4_combine_empty_is_noop (cells : list cell) (w : world) :
  compact cells = [] →
  ∃ n w',
    combine cells w = (Ret n, w')
    ∧ store w !! n = None
    ∧ store w' = <[n := [noop]]> (store w)
    ∧ trace w' = trace w
    ∧ notify n w' = (Ret tt, World (store w') (trace w ++ [EInvoke "noop"]))
    ∧ host_calls (trace w ++ [EInvoke "noop"]) = host_calls (trace w).
Proof.
  intros Hempty. unfold combine. rewrite Hempty.
  exists (fresh (dom (store w))). eexists. split; [reflexivity|]. simpl.
  split; [apply fresh_unallocated|]. split; [done|]. split; [done|]. split.
  - unfold notify. by rewrite notifyFns_insert_eq.
  - rewrite host_calls_app. simpl. by rewrite app_nil_r.
Qed.

Lemma C4_combine_empty_is_noop_witness :
  compact [CNull; CUndefined] = []
  ∧ ∃ n w', combine [CNull; CUndefined] w_abc = (Ret n, w')
            ∧ notify n w' = (Ret tt, World (store w') [EInvoke "noop"]).
Proof.
  split; [reflexivity|].
  destruct (C4_combine_empty_is_noop [CNull; CUndefined] w_abc eq_refl)
    as (n & w' & Hc & _ & _ & _ & Hn & _).
  exists n, w'. split; [exact Hc|exact Hn].
Defined.

(** C5: when exactly one present entry remains, [combine] returns that very
    instance and changes nothing. *)
Theorem C5_combine_single_is_identity (cells : list cell) (n : loc) (w : world) :
  compact cells = [n] →
  combine cells w = (Ret n, w)
  ∧ combine [CNotifier n] w = (Ret n, w).
Proof. intros Hone. unfold combine. by rewrite Hone. Qed.

Lemma C5_combine_single_is_identity_witness :
  compact [CNull; CNotifier 1; CUndefined] = [1]
  ∧ combine [CNull; CNotifier 1; CUndefined] w_abc = (Ret 1, w_abc).
Proof.
  split; [reflexivity|].
  apply (C5_combine_single_is_identity [CNull; CNotifier 1; CUndefined] 1 w_abc).
  reflexivity.
Defined.

(** C6 as the code has it: when [c] is not the same instance as [a],
    [combine [a; b; c]] returns [a], whose sequence is now [a]'s callbacks,
    then [b]'s, then [c]'s; [notify] on it runs them in that order, once per
    position.  Absent entries are dropped before anything else happens, so
    [combine [null; a; undefined; b]] is [combine [a; b]]. *)
Theorem C6_combine_runs_in_order :
  (∀ (a b c : loc) (w : world),
     a ≠ c →
     let fa := notifyFns w a in
     let fb := notifyFns w b in
     let fc := notifyFns w c in
     ∃ w',
       combine [CNotifier a; CNotifier b; CNotifier c] w = (Ret a, w')
       ∧ trace w' = trace w
       ∧ notifyFns w' a = fa ++ fb ++ fc
       ∧ notify a w' = (for_of call fa >> for_of call fb >> for_of call fc) w'
       ∧ (Forall quiet (fa ++ fb ++ fc) →
          ∃ ev, notify a w' = (Ret tt, World (store w') (trace w ++ ev))
                ∧ invoked ev = cb_name <$> (fa ++ fb ++ fc)))
  ∧ (∀ (cells : list cell) (w : world),
       combine cells w = combine (CNotifier <$> compact cells) w)
  ∧ (∀ (a b : loc) (w : world),
       combine [CNull; CNotifier a; CUndefined; CNotifier b] w
       = combine [CNotifier a; CNotifier b] w).
Proof.
  split; [|split; [|done]].
  - intros a b c w Hac fa fb fc.
    set (w1 := (concat a b w).2).
    exists (concat a c w1).2. split; [reflexivity|]. split; [reflexivity|].
    assert (Hseq : notifyFns (concat a c w1).2 a = fa ++ fb ++ fc).
    { rewrite concat_receiver. subst w1.
      rewrite concat_receiver, concat_other by done. by rewrite <-app_assoc. }
    split; [exact Hseq|]. split.
    + unfold notify. rewrite Hseq, for_of_app. unfold bind.
      destruct (for_of call fa _) as [[[]| |] w2]; [|done..].
      by rewrite for_of_app.
    + intros Hq. unfold notify. rewrite Hseq.
      destruct (for_of_call_ok _ (concat a c w1).2 Hq) as (ev & -> & _ & Hinv).
      by exists ev.
  - intros cells w. unfold combine. by rewrite compact_present.
Qed.

Lemma C6_combine_runs_in_order_witness :
  0 ≠ 2
  ∧ ∃ w', combine [CNotifier 0; CNotifier 1; CNotifier 2] w_abc = (Ret 0, w')
          ∧ cb_name <$> notifyFns w' 0 = ["a"; "b"; "c"].
Proof.
  assert (Hne : 0 ≠ 2) by discriminate.
  split; [exact Hne|].
  destruct (proj1 C6_combine_runs_in_order 0 1 2 w_abc Hne)
    as (w' & Hc & _ & Hseq & _).
  exists w'. split; [exact Hc|]. rewrite Hseq. reflexivity.
Defined.

(** C6 as stated fails when the third entry is the first instance again:
    by then [a] already holds [b]'s callback, so it is appended a second
    time. *)
Lemma C6_counterexample_aliased_entry :
  (combine [CNotifier 0; CNotifier 1; CNotifier 0] w_abc).1 = Ret 0
  ∧ invoked (trace ((let! r := combine [CNotifier 0; CNotifier 1; CNotifier 0] in
                     notify r) w_abc).2)
    = ["a"; "b"; "a"; "b"]
  ∧ cb_name <$> (notifyFns w_abc 0 ++ notifyFns w_abc 1 ++ notifyFns w_abc 0)
    = ["a"; "b"; "a"].
Proof. vm_compute. repeat split. Qed.

(** C7 as the code has it: [x.concat(y)] returns the receiver [x], whose
    sequence becomes [x]'s old sequence followed by [y]'s (also when [y] is
    [x] itself), and runs nothing.  Regrouping gives the same sequence,
    [(x.concat(y)).concat(z)] against [x.concat(y.concat(z))], whenever the
    receiver [x] is the same instance as both of [y] and [z] or as neither. *)
Theorem C7_concat_appends_and_regroups :
  (∀ (x y : loc) (w : world),
     ∃ w', concat x y w = (Ret x, w')
           ∧ notifyFns w' x = notifyFns w x ++ notifyFns w y
           ∧ trace w' = trace w)
  ∧ (∀ (x y z : loc) (w : world),
       (x = y ↔ x = z) →
       ∃ w1 w2,
         (let! xy := concat x y in concat xy z) w = (Ret x, w1)
         ∧ (let! yz := concat y z in concat x yz) w = (Ret x, w2)
         ∧ notifyFns w1 x = notifyFns w2 x
         ∧ (x ≠ y → notifyFns w1 x = notifyFns w x ++ notifyFns w y ++ notifyFns w z)).
Proof.
  split.
  - intros x y w. exists (concat x y w).2. split; [reflexivity|].
    split; [apply concat_receiver|reflexivity].
  - intros x y z w Halias.
    exists (concat x z (concat x y w).2).2, (concat x y (concat y z w).2).2.
    split; [reflexivity|]. split; [reflexivity|].
    destruct (decide (x = y)) as [Hxy|Hxy].
    + assert (x = z) as <- by by apply Halias. subst y. done.
    + assert (x ≠ z) as Hxz by (intros ?; by apply Hxy, Halias).
      assert (y ≠ x) as Hyx by done.
      assert (Hl : notifyFns (concat x z (concat x y w).2).2 x
                   = notifyFns w x ++ notifyFns w y ++ notifyFns w z).
      { rewrite concat_receiver, concat_receiver, concat_other by done.
        by rewrite <-app_assoc. }
      split; [|done]. rewrite Hl.
      by rewrite concat_receiver, concat_receiver, (concat_other y z x) by done.
Qed.

Lemma C7_concat_appends_and_regroups_witness :
  (0 = 1 ↔ 0 = 2)
  ∧ ∃ w1 w2,
      (let! xy := concat 0 1 in concat xy 2) w_abc = (Ret 0, w1)
      ∧ (let! yz := concat 1 2 in concat 0 yz) w_abc = (Ret 0, w2)
      ∧ notifyFns w1 0 = notifyFns w2 0.
Proof.
  assert (H : 0 = 1 ↔ 0 = 2) by (split; discriminate).
  split; [exact H|].
  destruct (proj2 C7_concat_appends_and_regroups 0 1 2 w_abc H)
    as (w1 & w2 & H1 & H2 & Heq & _).
  exists w1, w2. split; [exact H1|]. split; [exact H2|exact Heq].
Defined.

(** C7 as stated fails when the receiver is also the last operand:
    regrouping changes the resulting sequence. *)
Lemma C7_counterexample_aliased_receiver :
  cb_name <$> notifyFns ((let! xy := concat 0 1 in concat xy 0) w_abc).2 0
    = ["a"; "b"; "a"; "b"]
  ∧ cb_name <$> notifyFns ((let! yz := concat 1 0 in concat 0 yz) w_abc).2 0
    = ["a"; "b"; "a"].
Proof. vm_compute. split; reflexivity. Qed.

(** C8: starting from a store in which every Notifier holds at least one
    callback, [create], [concat] and [combine] return a Notifier holding at
    least one callback ([create fn] holds exactly [fn]), keep the store in
    that state, and run no callback: the trace is untouched.  The empty
    store is such a store. *)
Theorem C8_factories_keep_callbacks_and_run_none :
  store_ok w_empty
  ∧ ∀ w : world,
      store_ok w →
      (∀ fn, ∃ n w',
         create fn w = (Ret n, w')
         ∧ store w !! n = None
         ∧ notifyFns w' n = [fn]
         ∧ store_ok w' ∧ trace w' = trace w)
      ∧ (∀ x y, is_Some (store w !! x) →
         ∃ w',
           concat x y w = (Ret x, w')
           ∧ notifyFns w' x ≠ []
           ∧ store_ok w' ∧ trace w' = trace w)
      ∧ (∀ cells, (∀ n, n ∈ compact cells → is_Some (store w !! n)) →
         ∃ n w',
           combine cells w = (Ret n, w')
           ∧ is_Some (store w' !! n)
           ∧ notifyFns w' n ≠ []
           ∧ store_ok w' ∧ trace w' = trace w).
Proof.
  split; [intros n fns; unfold w_empty; simpl; by rewrite lookup_empty|].
  intros w Hok. split; [|split].
  - intros fn. exists (fresh (dom (store w))), (create fn w).2.
    split; [reflexivity|]. split; [apply fresh_unallocated|].
    split; [apply notifyFns_insert_eq|].
    split; [by apply create_store_ok|reflexivity].
  - intros x y [fx Hx]. exists (concat x y w).2.
    split; [reflexivity|]. split; [|split; [|reflexivity]].
    + rewrite concat_receiver, (notifyFns_allocated _ _ _ Hx).
      intros [? _]%app_eq_nil. by eapply Hok.
    + apply concat_store_ok; eauto.
  - intros cells Halloc. unfold combine.
    assert (Hne : ∀ w' n, store_ok w' → is_Some (store w' !! n) →
                          notifyFns w' n ≠ []).
    { intros w' n Hok' [fns Hn]. rewrite (notifyFns_allocated _ _ _ Hn).
      by eapply Hok'. }
    destruct (compact cells) as [|first [|second rest]] eqn:Hsafe.
    + exists (fresh (dom (store w))), (create noop w).2.
      split; [reflexivity|].
      assert (Hn : is_Some (store (create noop w).2 !! fresh (dom (store w))))
        by (unfold create; simpl; rewrite lookup_insert_eq; eauto).
      split; [exact Hn|]. split; [|split; [by apply create_store_ok|done]].
      apply Hne; [by apply create_store_ok|exact Hn].
    + exists first, w. split; [reflexivity|].
      assert (Hn : is_Some (store w !! first)) by (apply Halloc; by left).
      split; [exact Hn|]. split; [by apply Hne|done].
    + assert (Hn : is_Some (store w !! first)) by (apply Halloc; by left).
      destruct (reduce_concat_ok (second :: rest) first w Hok Hn)
        as (w' & Hred & Hok' & Hn' & Htr).
      exists first, w'. split; [exact Hred|]. split; [exact Hn'|].
      split; [by apply Hne|done].
Qed.

Lemma C8_factories_keep_callbacks_and_run_none_witness :
  store_ok w_empty
  ∧ ∃ n w', create (say "a") w_empty = (Ret n, w')
            ∧ notifyFns w' n = [say "a"] ∧ trace w' = [].
Proof.
  destruct C8_factories_keep_callbacks_and_run_none as [Hok Hall].
  split; [exact Hok|].
  destruct (proj1 (Hall w_empty Hok) (say "a")) as (n & w' & Hc & _ & Hseq & _ & Htr).
  exists n, w'. split; [exact Hc|]. split; [exact Hseq|exact Htr].
Defined.

(** C10 as the code has it: when [b] is not the receiver itself,
    [a.concat(b)] leaves [b]'s sequence as it was, so [b.notify()] still runs
    exactly [b]'s callbacks; triggering [a] and then [b] runs [a]'s old
    callbacks once and every position of [b]'s sequence twice. *)
Theorem C10_concat_copies_operand (a b : loc) (w : world) :
  a ≠ b →
  let fa := notifyFns w a in
  let fb := notifyFns w b in
  ∃ w',
    concat a b w = (Ret a, w')
    ∧ notifyFns w' b = fb
    ∧ notify b w' = for_of call fb w'
    ∧ (Forall quiet (fa ++ fb) →
       (∃ ev, notify b w' = (Ret tt, World (store w') (trace w' ++ ev))
              ∧ invoked ev = cb_name <$> fb)
       ∧ ∃ ev, (notify a >> notify b) w'
               = (Ret tt, World (store w') (trace w' ++ ev))
               ∧ invoked ev = cb_name <$> (fa ++ fb ++ fb)
               ∧ ∀ name, times name (invoked ev)
                         = times name (cb_name <$> fa)
                           + 2 * times name (cb_name <$> fb)).
Proof.
  intros Hab fa fb. exists (concat a b w).2. split; [reflexivity|].
  assert (Hb : notifyFns (concat a b w).2 b = fb) by by apply concat_other.
  assert (Ha : notifyFns (concat a b w).2 a = fa ++ fb) by apply concat_receiver.
  split; [exact Hb|]. split; [unfold notify; by rewrite Hb|].
  intros Hq. set (w' := (concat a b w).2) in *.
  assert (Hqb : Forall quiet fb) by by apply Forall_app in Hq as [_ ?].
  split.
  - unfold notify. rewrite Hb.
    destruct (for_of_call_ok fb w' Hqb) as (ev & -> & _ & Hinv). by exists ev.
  - unfold bind, notify. rewrite Ha.
    destruct (for_of_call_ok _ w' Hq) as (ev1 & -> & _ & Hinv1).
    set (w1 := World _ _).
    assert (Hb1 : notifyFns w1 b = fb) by (rewrite <-Hb; by apply notifyFns_store).
    rewrite Hb1.
    destruct (for_of_call_ok fb w1 Hqb) as (ev2 & -> & _ & Hinv2).
    exists (ev1 ++ ev2). subst w1; simpl. rewrite <-app_assoc.
    split; [done|].
    assert (Hinv : invoked (ev1 ++ ev2) = cb_name <$> (fa ++ fb ++ fb))
      by (by rewrite invoked_app, Hinv1, Hinv2, app_assoc, !fmap_app).
    split; [exact Hinv|].
    intros name. rewrite Hinv, !fmap_app, !times_app. lia.
Qed.

Lemma C10_concat_copies_operand_witness :
  0 ≠ 1
  ∧ ∃ w', concat 0 1 w_abc = (Ret 0, w')
          ∧ notifyFns w' 1 = notifyFns w_abc 1.
Proof.
  assert (Hne : 0 ≠ 1) by discriminate.
  split; [exact Hne|].
  destruct (C10_concat_copies_operand 0 1 w_abc Hne) as (w' & Hc & Hb & _).
  exists w'. split; [exact Hc|exact Hb].
Defined.

(** C10 as stated fails when the operand is the receiver itself:
    [a.concat(a)] doubles the sequence of that one instance, so the
    operand's sequence has changed and triggering it twice runs its
    original callback four times. *)
Lemma C10_counterexample_self_concat :
  cb_name <$> notifyFns w_abc 0 = ["a"]
  ∧ cb_name <$> notifyFns (concat 0 0 w_abc).2 0 = ["a"; "a"]
  ∧ invoked (trace ((concat 0 0 >> notify 0 >> notify 0) w_abc).2)
    = ["a"; "a"; "a"; "a"].
Proof. vm_compute. repeat split. Qed.

(** * Further properties of the Notifier class *)

Section MoreBatching.

Implicit Types (ps : list pcell) (w : world) (fns : list callback).

Lemma first_rejection_none ps :
  (∀ t e, Later t (Rejects e) ∉ ps) → first_rejection ps = None.
Proof.
  intros Hno. destruct (first_rejection ps) as [[t e]|] eqn:Hfr; [|done].
  apply first_rejection_least in Hfr as [Hin _]. by apply Hno in Hin.
Qed.

Lemma fulfilled_pending ps t : Later t Pends ∈ ps → fulfilled ps = None.
Proof.
  induction ps as [|p ps IH]; [by intros ?%elem_of_nil|].
  intros [<-|Hin]%elem_of_cons; simpl; [done|].
  rewrite (IH Hin). by destruct (resolved p).
Qed.

Lemma resolved_now (cells : list cell) : omap resolved (Now <$> cells) = cells.
Proof. induction cells as [|c cells IH]; csimpl; [done|]. by rewrite IH. Qed.

Lemma resolved_now_all (cells : list cell) :
  Forall (λ p, is_Some (resolved p)) (Now <$> cells).
Proof. induction cells; csimpl; constructor; eauto. Qed.

(** What a loop over callbacks returns and appends depends on the history
    only, not on the store it runs in. *)
Lemma for_of_call_trace_only fns w1 w2 :
  trace w1 = trace w2 →
  (for_of call fns w1).1 = (for_of call fns w2).1
  ∧ trace (for_of call fns w1).2 = trace (for_of call fns w2).2.
Proof.
  revert w1 w2. induction fns as [|fn fns IH]; intros w1 w2 Htr; simpl; [done|].
  unfold bind. rewrite !call_spec, Htr.
  destruct (cb_body fn (trace w2)).2; [done|]. by apply IH.
Qed.

Lemma flat_map_ext_in {A B} (f g : A → list B) (l : list A) :
  (∀ x, x ∈ l → f x = g x) → flat_map f l = flat_map g l.
Proof.
  induction l as [|x l IH]; intros Hfg; simpl; [done|].
  rewrite Hfg by left. rewrite IH; [done|]. intros y Hy. apply Hfg. by right.
Qed.

Lemma reduce_concat_cons (cur : loc) (rest : list loc) (first : loc) w :
  reduce (λ ret cur, concat ret cur) (cur :: rest) first w
  = reduce (λ ret cur, concat ret cur) rest first (concat first cur w).2.
Proof. reflexivity. Qed.

(** The fold of [combine] touches the first entry only and runs nothing. *)
Lemma reduce_concat_frame (rest : list loc) (first : loc) w :
  (reduce (λ ret cur, concat ret cur) rest first w).1 = Ret first
  ∧ trace (reduce (λ ret cur, concat ret cur) rest first w).2 = trace w
  ∧ ∀ n, n ≠ first →
      notifyFns (reduce (λ ret cur, concat ret cur) rest first w).2 n
      = notifyFns w n.
Proof.
  revert w. induction rest as [|cur rest IH]; intros w; [done|].
  rewrite reduce_concat_cons.
  destruct (IH (concat first cur w).2) as (Hret & Htr & Hframe).
  split; [done|]. split; [done|].
  intros n Hn. rewrite Hframe by done. by apply concat_other.
Qed.

(** When the first entry does not occur again, it ends up holding its own
    callbacks followed by those of the other entries, in order. *)
Lemma reduce_concat_seq (rest : list loc) (first : loc) w :
  first ∉ rest →
  notifyFns (reduce (λ ret cur, concat ret cur) rest first w).2 first
  = notifyFns w first ++ flat_map (notifyFns w) rest.
Proof.
  revert w. induction rest as [|cur rest IH]; intros w Hnotin.
  - simpl. by rewrite app_nil_r.
  - apply not_elem_of_cons in Hnotin as [Hne Hnotin].
    rewrite reduce_concat_cons, IH by done. cbn [flat_map].
    rewrite concat_receiver, <-app_assoc. do 2 f_equal.
    apply flat_map_ext_in. intros n Hn. apply concat_other.
    intros ->. by apply Hnotin.
Qed.

End MoreBatching.

Lemma combine_present (cells : list cell) (first : loc) (rest : list loc) (w : world) :
  compact cells = first :: rest →
  combine cells w = reduce (λ ret cur, concat ret cur) rest first w.
Proof. intros H. unfold combine. rewrite H. by destruct rest. Qed.

(** X1: the static [run] given a cell that is, or resolves to, an absent
    value returns without touching the host, whereas [runAll] on that same
    single cell still opens and closes an empty window. *)
Theorem X1_static_run_absent_skips_window (p : pcell) (c : cell) (w : world) :
  resolved p = Some c →
  compact [c] = [] →
  run_static p w = (Ret tt, w)
  ∧ runAll [p] w = (Ret tt, World (store w) (trace w ++ [EPause; EResume])).
Proof.
  intros Hp Hc.
  destruct p as [c'|t [c'| |]]; simpl in Hp; try done;
    injection Hp as ->; destruct c as [| |n]; try done;
    (split; [reflexivity|]);
    unfold runAll, bind, await, pauseNotification, resumeNotification, emit;
    simpl; by rewrite <-app_assoc.
Qed.

Lemma X1_static_run_absent_skips_window_witness :
  resolved (Later 4 (Fulfils CNull)) = Some CNull
  ∧ run_static (Later 4 (Fulfils CNull)) w_abc = (Ret tt, w_abc).
Proof.
  split; [reflexivity|].
  apply (X1_static_run_absent_skips_window (Later 4 (Fulfils CNull)) CNull w_abc);
    reflexivity.
Defined.

(** X2: the static [run] given a cell that is, or resolves to, a Notifier
    behaves as that Notifier's own [run], which is [runAll] on the single
    cell; a promise that never settles makes it hang with nothing done. *)
Theorem X2_static_run_present_is_runAll (p : pcell) (n : loc) (w : world) :
  resolved p = Some (CNotifier n) →
  run_static p w = run n w
  ∧ run_static p w = runAll [p] w
  ∧ ∀ t, run_static (Later t Pends) w = (Hang, w).
Proof.
  intros Hp. split; [|split; [|done]];
    destruct p as [c|t [c| |]]; simpl in Hp; try done; by injection Hp as ->.
Qed.

Lemma X2_static_run_present_is_runAll_witness :
  resolved (Later 1 (Fulfils (CNotifier 2))) = Some (CNotifier 2)
  ∧ run_static (Later 1 (Fulfils (CNotifier 2))) w_abc = run 2 w_abc.
Proof.
  split; [reflexivity|].
  apply (X2_static_run_present_is_runAll (Later 1 (Fulfils (CNotifier 2))) 2 w_abc).
  reflexivity.
Defined.

(** X3: when no entry rejects and some entry never settles, [runAll] never
    completes and never opens the window: no host call, no callback. *)
Theorem X3_runAll_pending_never_opens (ps : list pcell) (t : nat) (w : world) :
  Later t Pends ∈ ps →
  (∀ t' e, Later t' (Rejects e) ∉ ps) →
  runAll ps w = (Hang, w).
Proof.
  intros Hpend Hno. unfold runAll, bind, await, promise_all.
  by rewrite (first_rejection_none _ Hno), (fulfilled_pending _ _ Hpend).
Qed.

Lemma X3_runAll_pending_never_opens_witness :
  Later 7 Pends ∈ [Now (CNotifier 0); Later 7 Pends]
  ∧ runAll [Now (CNotifier 0); Later 7 Pends] w_abc = (Hang, w_abc).
Proof.
  assert (Hin : Later 7 Pends ∈ [Now (CNotifier 0); Later 7 Pends]) by (right; left).
  split; [exact Hin|].
  apply (X3_runAll_pending_never_opens _ 7 w_abc Hin).
  intros t' e Hr.
  apply elem_of_cons in Hr as [Hr|Hr]; [discriminate|].
  apply elem_of_cons in Hr as [Hr|Hr]; [discriminate|].
  by apply elem_of_nil in Hr.
Defined.

(** X4: when every entry resolves to an absent value, [runAll] still calls
    pause and resume once each, with nothing in between, and returns. *)
Theorem X4_runAll_absent_only (ps : list pcell) (w : world) :
  Forall (λ p, is_Some (resolved p)) ps →
  compact (omap resolved ps) = [] →
  runAll ps w = (Ret tt, World (store w) (trace w ++ [EPause; EResume])).
Proof.
  intros Hres Habsent. rewrite runAll_resolved by done.
  unfold bind, pauseNotification, resumeNotification, emit; simpl.
  rewrite notifyAll_flat, Habsent. simpl. by rewrite <-app_assoc.
Qed.

Lemma X4_runAll_absent_only_witness :
  compact (omap resolved [Now CNull; Later 2 (Fulfils CUndefined)]) = []
  ∧ runAll [Now CNull; Later 2 (Fulfils CUndefined)] w_abc
    = (Ret tt, World (store w_abc) (trace w_abc ++ [EPause; EResume])).
Proof.
  split; [reflexivity|].
  apply (X4_runAll_absent_only [Now CNull; Later 2 (Fulfils CUndefined)] w_abc).
  - repeat constructor; simpl; eauto.
  - reflexivity.
Defined.

Lemma combine_folds (cells : list cell) (first : loc) (rest : list loc) (w : world) :
  compact cells = first :: rest →
  first ∉ rest →
  ∃ w',
    combine cells w = (Ret first, w')
    ∧ notifyFns w' first = notifyFns w first ++ flat_map (notifyFns w) rest
    ∧ trace w' = trace w.
Proof.
  intros Hsafe Hnotin. rewrite (combine_present _ _ _ _ Hsafe).
  destruct (reduce_concat_frame rest first w) as (Hret & Htr & _).
  exists (reduce (λ ret cur, concat ret cur) rest first w).2.
  split; [|split; [by apply reduce_concat_seq|done]].
  rewrite <-Hret. by destruct (reduce _ rest first w).
Qed.

(** X5: for any number of present entries, when the first one does not occur
    again among the others, [combine] returns that first instance, now
    holding its own callbacks followed by those of the other entries in
    encounter order, and runs nothing. *)
Theorem X5_combine_folds_in_order
    (cells : list cell) (first : loc) (rest : list loc) (w : world) :
  compact cells = first :: rest →
  first ∉ rest →
  ∃ w',
    combine cells w = (Ret first, w')
    ∧ notifyFns w' first = notifyFns w first ++ flat_map (notifyFns w) rest
    ∧ trace w' = trace w.
Proof.
  intros Hsafe Hnotin. rewrite (combine_present _ _ _ _ Hsafe).
  destruct (reduce_concat_frame rest first w) as (Hret & Htr & _).
  exists (reduce (λ ret cur, concat ret cur) rest first w).2.
  split; [|split; [by apply reduce_concat_seq|done]].
  rewrite <-Hret. by destruct (reduce _ rest first w).
Qed.

Lemma X5_combine_folds_in_order_witness :
  compact [CNotifier 2; CNull; CNotifier 0; CNotifier 1; CNotifier 0] = 2 :: [0; 1; 0]
  ∧ ∃ w', combine [CNotifier 2; CNull; CNotifier 0; CNotifier 1; CNotifier 0] w_abc
          = (Ret 2, w')
          ∧ cb_name <$> notifyFns w' 2 = ["c"; "a"; "b"; "a"].
Proof.
  split; [reflexivity|].
  destruct (X5_combine_folds_in_order
              [CNotifier 2; CNull; CNotifier 0; CNotifier 1; CNotifier 0]
              2 [0; 1; 0] w_abc eq_refl) as (w' & Hc & Hseq & _).
  - intros Hin. repeat (apply elem_of_cons in Hin as [Hin|Hin]; [discriminate|]).
    by apply elem_of_nil in Hin.
  - exists w'. split; [exact Hc|]. rewrite Hseq. reflexivity.
Defined.

(** X6: whatever the aliasing among its entries, [combine] on a list with a
    present entry changes the sequence of no Notifier other than the first
    present one. *)
Theorem X6_combine_mutates_first_only
    (cells : list cell) (first : loc) (rest : list loc) (w : world) (n : loc) :
  compact cells = first :: rest →
  n ≠ first →
  (combine cells w).1 = Ret first
  ∧ notifyFns (combine cells w).2 n = notifyFns w n
  ∧ trace (combine cells w).2 = trace w.
Proof.
  intros Hsafe Hn. rewrite (combine_present _ _ _ _ Hsafe).
  destruct (reduce_concat_frame rest first w) as (Hret & Htr & Hframe).
  split; [done|]. split; [by apply Hframe|done].
Qed.

Lemma X6_combine_mutates_first_only_witness :
  compact [CNotifier 0; CNotifier 1; CNotifier 0] = 0 :: [1; 0]
  ∧ notifyFns (combine [CNotifier 0; CNotifier 1; CNotifier 0] w_abc).2 1
    = notifyFns w_abc 1.
Proof.
  split; [reflexivity|].
  apply (X6_combine_mutates_first_only
           [CNotifier 0; CNotifier 1; CNotifier 0] 0 [1; 0] w_abc 1 eq_refl).
  discriminate.
Defined.

(** X7: when [notify] throws, it stopped at the first callback that threw:
    the callbacks before it ran, it ran, the ones after it did not; the
    store is untouched and [notify] itself made no pause or resume call. *)
Theorem X7_notify_stops_at_first_throw (n : loc) (w w' : world) (e : exn) :
  notify n w = (Throw e, w') →
  ∃ pre fn post ev,
    notifyFns w n = pre ++ fn :: post
    ∧ (∃ tr, (cb_body fn tr).2 = Some e)
    ∧ w' = World (store w) (trace w ++ ev)
    ∧ invoked ev = cb_name <$> (pre ++ [fn])
    ∧ pauses ev = 0 ∧ resumes ev = 0.
Proof.
  unfold notify.
  intros (pre & fn & post & ev & Hsplit & -> & Hev & Hinv & Hthrow)%for_of_call_throw.
  exists pre, fn, post, ev. repeat split; try done.
  - by apply pauses_callback.
  - by apply resumes_callback.
Qed.

Lemma X7_notify_stops_at_first_throw_witness :
  notify 0 w_boom = (Throw "boom", (notify 0 w_boom).2)
  ∧ ∃ pre fn post, notifyFns w_boom 0 = pre ++ fn :: post.
Proof.
  assert (Hrun : notify 0 w_boom = (Throw "boom", (notify 0 w_boom).2))
    by reflexivity.
  split; [exact Hrun|].
  destruct (X7_notify_stops_at_first_throw _ _ _ _ Hrun)
    as (pre & fn & post & _ & Hsplit & _).
  exists pre, fn, post. exact Hsplit.
Defined.

(** X8: combining cells and running the result sends the host exactly what
    [runAll] over the same cells sends: same outcome, same trace, provided
    there is a present entry and the first one does not occur again. *)
Theorem X8_combine_then_run_is_runAll
    (cells : list cell) (first : loc) (rest : list loc) (w : world) :
  compact cells = first :: rest →
  first ∉ rest →
  ((let! n := combine cells in run n) w).1 = (runAll (Now <$> cells) w).1
  ∧ trace ((let! n := combine cells in run n) w).2
    = trace (runAll (Now <$> cells) w).2.
Proof.
  intros Hsafe Hnotin.
  destruct (combine_folds _ _ _ w Hsafe Hnotin) as (w' & Hc & Hseq & Htr).
  assert (Hb : (let! n := combine cells in run n) w = run first w')
    by (unfold bind; by rewrite Hc).
  rewrite Hb. unfold run.
  rewrite !runAll_resolved, resolved_now
    by (apply resolved_now_all || (repeat constructor; simpl; eauto)).
  simpl. unfold bind, pauseNotification, resumeNotification, emit; simpl.
  rewrite !notifyAll_flat, Hsafe. simpl. rewrite app_nil_r.
  set (wa := World (store w') _). set (wb := World (store w) _).
  assert (Hfa : notifyFns wa first = notifyFns w first ++ flat_map (notifyFns w) rest)
    by (rewrite <-Hseq; by apply notifyFns_store).
  assert (Hfb : notifyFns wb first ++ flat_map (notifyFns wb) rest
                = notifyFns w first ++ flat_map (notifyFns w) rest).
  { reflexivity. }
  rewrite Hfa, Hfb.
  destruct (for_of_call_trace_only
              (notifyFns w first ++ flat_map (notifyFns w) rest) wa wb)
    as [Ho Ht]; [subst wa wb; simpl; by rewrite Htr|].
  destruct (for_of call _ wa) as [oa wa'], (for_of call _ wb) as [ob wb'].
  simpl in Ho, Ht. subst ob. destruct oa as [[]| |]; simpl; by rewrite ?Ht.
Qed.

Lemma X8_combine_then_run_is_runAll_witness :
  compact [CNotifier 0; CUndefined; CNotifier 1] = 0 :: [1]
  ∧ trace ((let! n := combine [CNotifier 0; CUndefined; CNotifier 1] in run n) w_abc).2
    = trace (runAll (Now <$> [CNotifier 0; CUndefined; CNotifier 1]) w_abc).2.
Proof.
  split; [reflexivity|].
  apply (X8_combine_then_run_is_runAll
           [CNotifier 0; CUndefined; CNotifier 1] 0 [1] w_abc eq_refl).
  intros Hin. apply elem_of_cons in Hin as [Hin|Hin]; [discriminate|].
  by apply elem_of_nil in Hin.
Defined.

(** * The documentation generator: strings, lines and the splice *)

Module GenDocFacts.
Import GenDoc.

Section Lines.

Implicit Types (s a b : string) (L : list string).

Lemma split_nonempty s : split s ≠ [].
Proof.
  destruct s as [|c s]; simpl; [done|].
  destruct (Ascii.eqb c _); [done|]. by destruct (split s).
Qed.

Lemma join_cons2 sep x y L :
  join sep (x :: y :: L) = x +:+ sep +:+ join sep (y :: L).
Proof. reflexivity. Qed.

Lemma append_String c a b : String c a +:+ b = String c (a +:+ b).
Proof. reflexivity. Qed.

(** Splitting into lines and joining them again gives the text back. *)
Lemma join_split s : join nl (split s) = s.
Proof.
  induction s as [|c s IH]; simpl; [done|].
  destruct (Ascii.eqb c _) eqn:Hc.
  - apply Ascii.eqb_eq in Hc as ->.
    destruct (split s) as [|y L] eqn:Hs; [by apply split_nonempty in Hs|].
    rewrite join_cons2, IH. reflexivity.
  - destruct (split s) as [|y [|z L]] eqn:Hs; [by apply split_nonempty in Hs| |].
    + simpl in *. by rewrite IH.
    + rewrite join_cons2 in *. rewrite append_String. by rewrite IH.
Qed.

Lemma split_app_nl a b : split (a +:+ nl +:+ b) = split a ++ split b.
Proof.
  induction a as [|c a IH]; simpl; [done|].
  destruct (Ascii.eqb c _); rewrite IH; [done|].
  destruct (split a) as [|y L] eqn:Ha; [by apply split_nonempty in Ha|done].
Qed.

(** Joined lines read back as the lines each of them splits into. *)
Lemma split_join L : L ≠ [] → split (join nl L) = flat_map split L.
Proof.
  induction L as [|x [|y L] IH]; intros HL; [done| |].
  - simpl. by rewrite app_nil_r.
  - rewrite join_cons2, split_app_nl, IH by done. reflexivity.
Qed.

Lemma split_one_line s : one_line s = true → split s = [s].
Proof.
  induction s as [|c s IH]; simpl; [done|].
  intros [Hc Hs]%andb_prop. apply negb_true_iff in Hc. rewrite Hc.
  by rewrite (IH Hs).
Qed.

Lemma split_lines_one_line s : Forall (λ l, one_line l = true) (split s).
Proof.
  induction s as [|c s IH]; simpl; [by repeat constructor|].
  destruct (Ascii.eqb c _) eqn:Hc; [by constructor|].
  destruct (split s) as [|y L]; [by repeat constructor; simpl; rewrite Hc|].
  apply Forall_cons in IH as [Hy HL]. constructor; [|done].
  simpl. by rewrite Hc, Hy.
Qed.

Lemma flat_map_split_one_line L :
  Forall (λ l, one_line l = true) L → flat_map split L = L.
Proof.
  induction 1 as [|x L Hx _ IH]; simpl; [done|].
  by rewrite (split_one_line _ Hx), IH.
Qed.

Lemma flat_map_split_idem L : flat_map split (flat_map split L) = flat_map split L.
Proof.
  apply flat_map_split_one_line.
  induction L as [|x L IH]; simpl; [constructor|].
  apply Forall_app. split; [apply split_lines_one_line|done].
Qed.

(** Lines that read back the same are written the same. *)
Lemma join_flat_split L1 L2 :
  L1 ≠ [] → L2 ≠ [] →
  flat_map split L1 = flat_map split L2 → join nl L1 = join nl L2.
Proof.
  intros H1 H2 Heq.
  rewrite <-(join_split (join nl L1)), <-(join_split (join nl L2)).
  by rewrite !split_join, Heq.
Qed.

End Lines.

Section FindIndex.

Context {A : Type} (p : A → bool).

Lemma findIndex_none (l : list A) :
  Forall (λ x, p x = false) l → findIndex p l = None.
Proof. induction 1 as [|x l Hx _ IH]; simpl; [done|]. by rewrite Hx, IH. Qed.

Lemma findIndex_first (pre : list A) (h : A) (rest : list A) :
  Forall (λ x, p x = false) pre → p h = true →
  findIndex p (pre ++ h :: rest) = Some (length pre).
Proof.
  intros Hpre Hh. induction Hpre as [|x pre Hx _ IH]; simpl.
  - by rewrite Hh.
  - by rewrite Hx, IH.
Qed.

End FindIndex.

(** ** [attach] *)

Section Attach.

Variable regexp : string → option (string → bool).
Variable stringify : json → option string → string.
Variable to_string : json → string.

Implicit Types (fs : gmap string string) (rows : list Row).
Implicit Types (pre body post rest : list string) (h next md : string).

Lemma findIndex_re_compiled (pat : string) (test : string → bool) (l : list string) :
  regexp pat = Some test →
  findIndex_re regexp (Ok pat) l = Ok (findIndex test l).
Proof. intros H. destruct l; simpl; [done|]. by rewrite H. Qed.

(** What is read back from a file in which a block was written between
    lines that came out of [split]. *)
Lemma reread (A G B : list string) :
  A ≠ [] →
  Forall (λ l, one_line l = true) A →
  Forall (λ l, one_line l = true) B →
  split (join nl (A ++ G ++ B)) = A ++ flat_map split G ++ B.
Proof.
  intros HA HlA HlB. rewrite split_join by (by destruct A).
  rewrite !flat_map_app.
  by rewrite (flat_map_split_one_line A), (flat_map_split_one_line B).
Qed.

(** X9: whatever the inputs, [attach] changes no file other than the one at
    [markdownPath], creates and deletes no file, leaves every file as it
    was when it fails, and fails when that file does not exist. *)
Theorem X9_attach_touches_one_existing_file
    (headLevel : Z) (attachTitle markdownPath : string) rows fs :
  dom (attach regexp stringify to_string headLevel attachTitle markdownPath rows fs).2
  = dom fs
  ∧ (∀ other, other ≠ markdownPath →
       (attach regexp stringify to_string headLevel attachTitle markdownPath rows fs).2
         !! other = fs !! other)
  ∧ (∀ e,
       (attach regexp stringify to_string headLevel attachTitle markdownPath rows fs).1
       = Err e →
       (attach regexp stringify to_string headLevel attachTitle markdownPath rows fs).2
       = fs)
  ∧ (fs !! markdownPath = None →
       attach regexp stringify to_string headLevel attachTitle markdownPath rows fs
       = (Err (ENOENT markdownPath), fs)).
Proof.
  unfold attach.
  destruct (fs !! markdownPath) as [md|] eqn:Hmd; [|done].
  destruct (findIndex_re regexp _ (split md)) as [[found|]|e1]; [|done..].
  destruct (findIndex_re regexp _ (drop _ _)) as [endIndex|e2]; [|done].
  simpl. split; [|split; [|done]].
  - apply dom_insert_lookup_L. by eexists.
  - intros other Hne. by rewrite lookup_insert_ne.
Qed.

Section Header.

Variables (headLevel : Z) (attachTitle markdownPath : string).
Variables (is_start is_end : string → bool).

Hypothesis Hlevel : (0 ≤ headLevel)%Z.
Hypothesis Hstart :
  regexp (hashes (Z.to_nat headLevel) +:+ "\s*" +:+ attachTitle +:+ "\s*")
  = Some is_start.
Hypothesis Hend :
  regexp (hashes (Z.to_nat headLevel) +:+ "[^#]") = Some is_end.

(** The header line is found: everything up to it is kept, the generated
    lines follow, then the old lines from the next header on (or all of
    them when there is none). *)
Lemma attach_found rows fs md pre h rest :
  fs !! markdownPath = Some md →
  split md = pre ++ h :: rest →
  Forall (λ l, is_start l = false) pre →
  is_start h = true →
  attach regexp stringify to_string headLevel attachTitle markdownPath rows fs
  = (Ok tt,
     <[markdownPath :=
         join nl (pre ++ h :: printAsDetails stringify to_string rows
                    ++ drop (default 0 (findIndex is_end rest)) rest)]> fs).
Proof.
  intros Hmd Hsplit Hpre Hh. unfold attach, repeat_hash.
  rewrite Hmd, Hsplit. apply Z.ltb_ge in Hlevel. rewrite Hlevel.
  rewrite (findIndex_re_compiled _ _ _ Hstart), (findIndex_first _ _ _ _ Hpre Hh).
  assert (Hcut : pre ++ h :: rest = (pre ++ [h]) ++ rest) by by rewrite <-app_assoc.
  assert (Hlen : length pre + 1 = length (pre ++ [h]))
    by (rewrite length_app; simpl; lia).
  assert (Hdrop : drop (length pre + 1) (pre ++ h :: rest) = rest)
    by (rewrite Hcut, Hlen; apply drop_app_length).
  rewrite Hdrop, (findIndex_re_compiled _ _ _ Hend).
  do 3 f_equal. unfold splice.
  rewrite <-drop_drop, Hdrop. rewrite Hcut, Hlen, take_app_length.
  by rewrite <-app_assoc.
Qed.

(** X10: when no line of the file matches the header pattern, [attach]
    returns normally and writes nothing. *)
Theorem X10_attach_without_header_writes_nothing rows fs md :
  fs !! markdownPath = Some md →
  Forall (λ l, is_start l = false) (split md) →
  attach regexp stringify to_string headLevel attachTitle markdownPath rows fs
  = (Ok tt, fs).
Proof.
  intros Hmd Hnone. unfold attach, repeat_hash.
  rewrite Hmd. apply Z.ltb_ge in Hlevel. rewrite Hlevel.
  by rewrite (findIndex_re_compiled _ _ _ Hstart), (findIndex_none _ _ Hnone).
Qed.

Lemma attach_replaces rows fs md pre h body next post :
  fs !! markdownPath = Some md →
  split md = pre ++ h :: body ++ next :: post →
  Forall (λ l, is_start l = false) pre →
  is_start h = true →
  Forall (λ l, is_end l = false) body →
  is_end next = true →
  attach regexp stringify to_string headLevel attachTitle markdownPath rows fs
  = (Ok tt,
     <[markdownPath :=
         join nl (pre ++ h :: printAsDetails stringify to_string rows
                    ++ next :: post)]> fs).
Proof.
  intros Hmd Hsplit Hpre Hh Hbody Hnext.
  rewrite (attach_found rows fs md pre h (body ++ next :: post)) by done.
  rewrite (findIndex_first _ _ _ _ Hbody Hnext). simpl.
  by rewrite drop_app_length.
Qed.

(** X11: when the first matching header is followed, some lines later, by a
    first line matching the end pattern, [attach] rewrites the file as: the
    lines up to and including the header, the generated lines, then the
    lines from that end line on.  The lines in between are dropped. *)
Theorem X11_attach_replaces_section rows fs md pre h body next post :
  fs !! markdownPath = Some md →
  split md = pre ++ h :: body ++ next :: post →
  Forall (λ l, is_start l = false) pre →
  is_start h = true →
  Forall (λ l, is_end l = false) body →
  is_end next = true →
  attach regexp stringify to_string headLevel attachTitle markdownPath rows fs
  = (Ok tt,
     <[markdownPath :=
         join nl (pre ++ h :: printAsDetails stringify to_string rows
                    ++ next :: post)]> fs).
Proof.
  intros Hmd Hsplit Hpre Hh Hbody Hnext.
  rewrite (attach_found rows fs md pre h (body ++ next :: post)) by done.
  rewrite (findIndex_first _ _ _ _ Hbody Hnext). simpl.
  by rewrite drop_app_length.
Qed.

(** X12: when no line after the header matches the end pattern, [attach]
    removes nothing: the generated lines are inserted after the header and
    the old body stays behind them.  Run again, it inserts the generated
    lines once more in front of the previous ones. *)
Theorem X12_attach_last_section_accumulates rows fs md pre h body :
  fs !! markdownPath = Some md →
  split md = pre ++ h :: body →
  Forall (λ l, is_start l = false) pre →
  is_start h = true →
  Forall (λ l, is_end l = false) body →
  let lines := printAsDetails stringify to_string rows in
  let fs1 := <[markdownPath := join nl (pre ++ h :: lines ++ body)]> fs in
  attach regexp stringify to_string headLevel attachTitle markdownPath rows fs
  = (Ok tt, fs1)
  ∧ (Forall (λ l, is_end l = false) (flat_map split lines) →
     attach regexp stringify to_string headLevel attachTitle markdownPath rows fs1
     = (Ok tt,
        <[markdownPath := join nl (pre ++ h :: lines ++ lines ++ body)]> fs)).
Proof.
  intros Hmd Hsplit Hpre Hh Hbody lines fs1.
  assert (Hfirst :
    attach regexp stringify to_string headLevel attachTitle markdownPath rows fs
    = (Ok tt, fs1)).
  { rewrite (attach_found rows fs md pre h body) by done.
    by rewrite (findIndex_none _ _ Hbody). }
  split; [exact Hfirst|]. intros Hlines.
  pose proof (split_lines_one_line md) as Hone. rewrite Hsplit in Hone.
  apply Forall_app in Hone as [Hone_pre Hone_rest].
  apply Forall_cons in Hone_rest as [Hone_h Hone_body].
  assert (Hread : split (join nl (pre ++ h :: lines ++ body))
                  = pre ++ h :: flat_map split lines ++ body).
  { pose proof (reread (pre ++ [h]) lines body) as Hr.
    rewrite <-!app_assoc in Hr. simpl in Hr. apply Hr; [by destruct pre| |done].
    apply Forall_app. split; [done|by constructor]. }
  rewrite (attach_found rows fs1 (join nl (pre ++ h :: lines ++ body))
             pre h (flat_map split lines ++ body));
    [|by apply lookup_insert_eq|exact Hread|done|done].
  rewrite findIndex_none by (apply Forall_app; by split).
  simpl. subst fs1. rewrite insert_insert_eq. fold lines.
  change (drop 0 (flat_map split lines ++ body))
    with (flat_map split lines ++ body).
  rewrite (join_flat_split (pre ++ h :: lines ++ flat_map split lines ++ body)
                           (pre ++ h :: lines ++ lines ++ body));
    [done|by destruct pre|by destruct pre|].
  rewrite !flat_map_app. simpl. rewrite !flat_map_app.
  by rewrite flat_map_split_idem.
Qed.

(** X13: when a line matching the end pattern follows the section and no
    generated line, as read back from the file, matches that pattern,
    running [attach] a second time leaves the file as the first run wrote
    it. *)
Theorem X13_attach_twice_is_attach_once rows fs md pre h body next post :
  fs !! markdownPath = Some md →
  split md = pre ++ h :: body ++ next :: post →
  Forall (λ l, is_start l = false) pre →
  is_start h = true →
  Forall (λ l, is_end l = false) body →
  is_end next = true →
  Forall (λ l, is_end l = false)
         (flat_map split (printAsDetails stringify to_string rows)) →
  attach regexp stringify to_string headLevel attachTitle markdownPath rows
    (attach regexp stringify to_string headLevel attachTitle markdownPath rows fs).2
  = (Ok tt,
     (attach regexp stringify to_string headLevel attachTitle markdownPath rows fs).2).
Proof.
  intros Hmd Hsplit Hpre Hh Hbody Hnext Hlines.
  rewrite (attach_replaces rows fs md pre h body next post) by done.
  simpl. set (lines := printAsDetails stringify to_string rows) in *.
  pose proof (split_lines_one_line md) as Hone. rewrite Hsplit in Hone.
  apply Forall_app in Hone as [Hone_pre Hone_rest].
  apply Forall_cons in Hone_rest as [Hone_h Hone_rest].
  apply Forall_app in Hone_rest as [_ Hone_post].
  assert (Hread : split (join nl (pre ++ h :: lines ++ next :: post))
                  = pre ++ h :: flat_map split lines ++ next :: post).
  { pose proof (reread (pre ++ [h]) lines (next :: post)) as Hr.
    rewrite <-!app_assoc in Hr. simpl in Hr. apply Hr; [by destruct pre| |done].
    apply Forall_app. split; [done|by constructor]. }
  rewrite (attach_found rows _ (join nl (pre ++ h :: lines ++ next :: post))
             pre h (flat_map split lines ++ next :: post));
    [|by apply lookup_insert_eq|exact Hread|done|done].
  rewrite (findIndex_first _ _ _ _ Hlines Hnext). simpl.
  by rewrite drop_app_length, insert_insert_eq.
Qed.

End Header.

End Attach.

Lemma X9_attach_touches_one_existing_file_witness :
  "license.md" ≠ "readme.md"
  ∧ (attach toy_regexp toy_stringify toy_to_string 2 "Configuration" "readme.md"
            one_row (<["readme.md" := readme_mid]> (<["license.md" := "MIT"]> ∅))).2
      !! "license.md"
    = Some "MIT".
Proof.
  assert (Hne : "license.md" ≠ "readme.md") by discriminate.
  split; [exact Hne|].
  destruct (X9_attach_touches_one_existing_file toy_regexp toy_stringify toy_to_string
              2 "Configuration" "readme.md" one_row
              (<["readme.md" := readme_mid]> (<["license.md" := "MIT"]> ∅)))
    as (_ & Hother & _).
  rewrite (Hother "license.md" Hne). reflexivity.
Defined.

Lemma X10_attach_without_header_writes_nothing_witness :
  (0 ≤ 2)%Z
  ∧ attach toy_regexp toy_stringify toy_to_string 2 "Configuration" "readme.md"
           one_row (<["readme.md" := "# explorer"]> ∅)
    = (Ok tt, <["readme.md" := "# explorer"]> ∅).
Proof.
  assert (Hlevel : (0 ≤ 2)%Z) by lia.
  split; [exact Hlevel|].
  apply (X10_attach_without_header_writes_nothing
           toy_regexp toy_stringify toy_to_string 2 "Configuration" "readme.md"
           (String.prefix "## Configuration") Hlevel eq_refl
           one_row _ "# explorer").
  - reflexivity.
  - repeat constructor.
Defined.

Lemma X11_attach_replaces_section_witness :
  split readme_mid
  = ["# explorer"] ++ "## Configuration" :: ["old text"] ++ "## License" :: ["MIT"]
  ∧ attach toy_regexp toy_stringify toy_to_string 2 "Configuration" "readme.md"
           one_row (<["readme.md" := readme_mid]> ∅)
    = (Ok tt,
       <["readme.md" :=
           join nl (["# explorer"] ++ "## Configuration"
                      :: printAsDetails toy_stringify toy_to_string one_row
                      ++ "## License" :: ["MIT"])]>
         (<["readme.md" := readme_mid]> ∅)).
Proof.
  split; [reflexivity|].
  apply (X11_attach_replaces_section
           toy_regexp toy_stringify toy_to_string 2 "Configuration" "readme.md"
           (String.prefix "## Configuration") (String.prefix "## ")
           ltac:(lia) eq_refl eq_refl
           one_row _ readme_mid ["# explorer"] "## Configuration" ["old text"]
           "## License" ["MIT"]).
  - reflexivity.
  - reflexivity.
  - repeat constructor.
  - reflexivity.
  - repeat constructor.
  - reflexivity.
Defined.

Lemma X12_attach_last_section_accumulates_witness :
  split readme_last = ["# explorer"] ++ "## Configuration" :: ["old text"]
  ∧ attach toy_regexp toy_stringify toy_to_string 2 "Configuration" "readme.md"
           one_row (<["readme.md" := readme_last]> ∅)
    = (Ok tt,
       <["readme.md" :=
           join nl (["# explorer"] ++ "## Configuration"
                      :: printAsDetails toy_stringify toy_to_string one_row
                      ++ ["old text"])]>
         (<["readme.md" := readme_last]> ∅)).
Proof.
  split; [reflexivity|].
  apply (X12_attach_last_section_accumulates
           toy_regexp toy_stringify toy_to_string 2 "Configuration" "readme.md"
           (String.prefix "## Configuration") (String.prefix "## ")
           ltac:(lia) eq_refl eq_refl
           one_row _ readme_last ["# explorer"] "## Configuration" ["old text"]).
  - reflexivity.
  - reflexivity.
  - repeat constructor.
  - reflexivity.
  - repeat constructor.
Defined.

Lemma X13_attach_twice_is_attach_once_witness :
  split readme_mid
  = ["# explorer"] ++ "## Configuration" :: ["old text"] ++ "## License" :: ["MIT"]
  ∧ attach toy_regexp toy_stringify toy_to_string 2 "Configuration" "readme.md" one_row
      (attach toy_regexp toy_stringify toy_to_string 2 "Configuration" "readme.md"
              one_row (<["readme.md" := readme_mid]> ∅)).2
    = (Ok tt,
       (attach toy_regexp toy_stringify toy_to_string 2 "Configuration" "readme.md"
               one_row (<["readme.md" := readme_mid]> ∅)).2).
Proof.
  split; [reflexivity|].
  apply (X13_attach_twice_is_attach_once
           toy_regexp toy_stringify toy_to_string 2 "Configuration" "readme.md"
           (String.prefix "## Configuration") (String.prefix "## ")
           ltac:(lia) eq_refl eq_refl
           one_row _ readme_mid ["# explorer"] "## Configuration" ["old text"]
           "## License" ["MIT"]).
  - reflexivity.
  - reflexivity.
  - repeat constructor.
  - reflexivity.
  - repeat constructor.
  - reflexivity.
  - repeat constructor.
Defined.

(** ** [genType], [genConfigurationDoc] and [main] *)

Section DefinitionInduction.

Variable P : definition → Prop.
Hypothesis Hdef :
  ∀ enum type items anyOf description default_doc default_,
    match items with ItemsDef d => P d | _ => True end →
    match anyOf with Some ds => Forall P ds | None => True end →
    P (Def enum type items anyOf description default_doc default_).

(** Induction over a schema, its [items] and its [anyOf] alternatives. *)
Lemma definition_nested_ind (def : definition) : P def.
Proof.
  revert def. fix IH 1.
  intros [enum type items anyOf description default_doc default_].
  apply Hdef.
  - destruct items as [|d|]; [exact I|apply IH|exact I].
  - destruct anyOf as [ds|]; [|exact I].
    revert ds. fix IHds 1. intros [|d ds]; constructor; [apply IH|apply IHds].
Qed.

End DefinitionInduction.

Section Rows.

Variable regexp : string → option (string → bool).
Variable stringify : json → option string → string.
Variable to_string : json → string.

Lemma traverse_for_property {A B} (f : string → A → result B) (p q : string)
    (l : list A) :
  Forall (λ x, f q x = for_property q (f p x)) l →
  traverse (f q) l = for_property q (traverse (f p) l).
Proof.
  induction 1 as [|x l Hx _ IH]; simpl; [done|].
  rewrite Hx, IH.
  destruct (f p x) as [y|[]]; simpl; try done.
  by destruct (traverse (f p) l) as [ys|[]].
Qed.

Lemma traverse_error {A B} (f : A → result B) (l : list A) (e : error) :
  traverse f l = Err e → ∃ x, x ∈ l ∧ f x = Err e.
Proof.
  induction l as [|x l IH]; simpl; [done|].
  destruct (f x) as [y|e'] eqn:Hx.
  - destruct (traverse f l) as [ys|e'']; [done|].
    intros [= ->]. destruct (IH eq_refl) as (x' & Hin & Hx').
    exists x'. split; [by right|done].
  - intros [= ->]. exists x. split; [by left|done].
Qed.

(** X14: the property name given to [genType] shows only in its error.  The
    type text does not depend on it, and a failure is either the TypeError
    of an array without [items] or the "not supported" error naming the
    property given at the top, also when a nested definition is at fault. *)
Theorem X14_genType_property_only_names_error (p q : string) (def : definition) :
  genType to_string q def = for_property q (genType to_string p def)
  ∧ (∀ t, genType to_string p def = Ok t → genType to_string q def = Ok t)
  ∧ (∀ e, genType to_string p def = Err e → e = TypeError ∨ e = NotSupported p).
Proof.
  assert (Heq : ∀ def p q,
            genType to_string q def = for_property q (genType to_string p def)).
  { clear. intros def. induction def as
      [enum type items anyOf description default_doc default_ Hitems HanyOf]
      using definition_nested_ind.
    intros p q. simpl. destruct enum as [enum|]; [done|].
    assert (Hafter :
      match anyOf with
      | Some anyOf =>
          match traverse (genType to_string q) anyOf with
          | Err e => Err e
          | Ok ts => Ok (join " | " ts)
          end
      | None => Err (NotSupported q)
      end
      = for_property q
          match anyOf with
          | Some anyOf =>
              match traverse (genType to_string p) anyOf with
              | Err e => Err e
              | Ok ts => Ok (join " | " ts)
              end
          | None => Err (NotSupported p)
          end).
    { destruct anyOf as [ds|]; [|done].
      rewrite (traverse_for_property (genType to_string) p q ds).
      - by destruct (traverse (genType to_string p) ds) as [ts|[]].
      - eapply Forall_impl; [exact HanyOf|]. intros d Hd. apply Hd. }
    destruct type as [[name|names]|]; [|done|exact Hafter].
    destruct (String.eqb name ""); [exact Hafter|].
    destruct (String.eqb name "array"); [|done].
    destruct items as [|d|]; [done|apply Hitems|done]. }
  split; [apply Heq|]. split.
  - intros t Ht. by rewrite (Heq def p q), Ht.
  - clear Heq q. revert p. induction def as
      [enum type items anyOf description default_doc default_ Hitems HanyOf]
      using definition_nested_ind.
    intros p e. simpl. destruct enum as [enum|]; [done|].
    assert (Hafter :
      match anyOf with
      | Some anyOf =>
          match traverse (genType to_string p) anyOf with
          | Err e => Err e
          | Ok ts => Ok (join " | " ts)
          end
      | None => Err (NotSupported p)
      end = Err e → e = TypeError ∨ e = NotSupported p).
    { destruct anyOf as [ds|]; [|intros [= <-]; by right].
      destruct (traverse (genType to_string p) ds) as [ts|e'] eqn:Htr; [done|].
      intros [= ->]. apply traverse_error in Htr as (d & Hd & He).
      eapply Forall_forall in HanyOf; [|exact Hd]. by apply HanyOf. }
    destruct type as [[name|names]|]; [|done|exact Hafter].
    destruct (String.eqb name ""); [exact Hafter|].
    destruct (String.eqb name "array"); [|done].
    destruct items as [|d|];
      [intros [= <-]; by left|apply Hitems|intros [= <-]; by right].
Qed.

Lemma default_of_not_empty (def : definition) : default_of def ≠ Some (JStr "").
Proof.
  assert (Hs : ∀ s, String.eqb s "" = false →
                    Some (JStr s) ≠ Some (JStr "")).
  { intros s Hs [= ->]. by rewrite String.eqb_refl in Hs. }
  assert (Hfrom :
    match d_default def with
    | Some (JStr s) => Some (JStr (if String.eqb s "" then "`[empty]`" else s))
    | Some d => Some d
    | None => None
    end ≠ Some (JStr "")).
  { destruct (d_default def) as [[]|]; try done.
    destruct (String.eqb s "") eqn:Hsb; [done|by apply Hs]. }
  unfold default_of. destruct (d_default_doc def) as [doc|]; [|exact Hfrom].
  destruct (truthy doc) eqn:Ht; [|exact Hfrom].
  destruct doc; try done. simpl in Ht. apply negb_true_iff in Ht.
  rewrite Ht. by apply Hs.
Qed.

(** The loop appends one row per property, in order. *)
Lemma genConfigurationDoc_from_rows (conf : list (string * definition))
    (acc rows : list Row) :
  genConfigurationDoc_from to_string conf acc = Ok rows →
  ∃ new,
    rows = acc ++ new
    ∧ row_key <$> new = conf.*1
    ∧ Forall (λ r, (∃ t, row_type r = Some (JStr t))
                   ∧ row_default r ≠ Some (JStr "")) new.
Proof.
  revert acc. induction conf as [|[property def] conf IH]; intros acc; simpl.
  - intros [= <-]. exists []. by rewrite app_nil_r.
  - destruct (genType to_string property def) as [t|e]; [|done].
    intros (new & -> & Hkeys & Hall)%IH.
    eexists (_ :: new). rewrite <-app_assoc. split; [done|].
    split; [csimpl; by rewrite Hkeys|].
    constructor; [|done]. simpl. split; [by eexists|apply default_of_not_empty].
Qed.

(** X15: when [genConfigurationDoc] returns, it returns one row per
    property, in the order the properties are enumerated, each with a
    string for its type and never the empty string for its default. *)
Theorem X15_genConfigurationDoc_rows
    (conf : list (string * definition)) (rows : list Row) :
  genConfigurationDoc to_string conf = Ok rows →
  row_key <$> rows = conf.*1
  ∧ Forall (λ r, (∃ t, row_type r = Some (JStr t))
                 ∧ row_default r ≠ Some (JStr "")) rows.
Proof.
  unfold genConfigurationDoc.
  by intros (new & -> & Hkeys & Hall)%genConfigurationDoc_from_rows.
Qed.

(** X16: a [default_doc] that is falsy (the empty string, null, false, 0)
    is ignored: the row's default is computed as if the definition had no
    [default_doc], so an empty [default_doc] never shows as [`[empty]`],
    while an empty [default] does. *)
Theorem X16_falsy_default_doc_is_ignored (def : definition) (doc : json) :
  d_default_doc def = Some doc →
  truthy doc = false →
  default_of def
  = default_of (Def (d_enum def) (d_type def) (d_items def) (d_anyOf def)
                    (d_description def) None (d_default def))
  ∧ (d_default def = Some (JStr "") → default_of def = Some (JStr "`[empty]`")).
Proof.
  intros Hdoc Hfalsy. unfold default_of. rewrite Hdoc, Hfalsy. simpl.
  split; [done|]. by intros ->.
Qed.

(** The loop fails with the error of the first property [genType] rejects. *)
Lemma genConfigurationDoc_from_first_error
    (good : list (string * definition)) (property : string) (def : definition)
    (rest : list (string * definition)) (acc : list Row) (e : error) :
  Forall (λ pd, ∃ t, genType to_string pd.1 pd.2 = Ok t) good →
  genType to_string property def = Err e →
  genConfigurationDoc_from to_string (good ++ (property, def) :: rest) acc = Err e.
Proof.
  intros Hgood Hbad. revert acc.
  induction Hgood as [|[p d] good [t Ht] _ IH]; intros acc; simpl.
  - by rewrite Hbad.
  - simpl in Ht. rewrite Ht. apply IH.
Qed.

(** X17: when [genType] rejects a property, [main] fails with the error of
    the first such property and leaves every file as it was: the readme is
    not even read. *)
Theorem X17_main_unsupported_property_writes_nothing
    (good : list (string * definition)) (property : string) (def : definition)
    (rest : list (string * definition)) (e : error) (fs : gmap string string) :
  Forall (λ pd, ∃ t, genType to_string pd.1 pd.2 = Ok t) good →
  genType to_string property def = Err e →
  main regexp stringify to_string (good ++ (property, def) :: rest) fs
  = (Err e, fs).
Proof.
  intros Hgood Hbad. unfold main, genConfigurationDoc.
  by rewrite (genConfigurationDoc_from_first_error good property def rest [] e).
Qed.

End Rows.

Lemma X15_genConfigurationDoc_rows_witness :
  genConfigurationDoc toy_to_string [("explorer.root", def_string); ("explorer.kinds", def_array)]
  = Ok [mkRow "explorer.root" "Root" (Some (JStr "string")) (Some (JStr "`[empty]`"));
        mkRow "explorer.kinds" "" (Some (JStr (dquote +:+ "a" +:+ dquote +:+ " | "
                                                 +:+ dquote +:+ "b" +:+ dquote)))
              None]
  ∧ row_key <$> [mkRow "explorer.root" "Root" (Some (JStr "string")) (Some (JStr "`[empty]`"));
                 mkRow "explorer.kinds" "" (Some (JStr (dquote +:+ "a" +:+ dquote +:+ " | "
                                                          +:+ dquote +:+ "b" +:+ dquote)))
                       None]
    = ["explorer.root"; "explorer.kinds"].
Proof.
  assert (Hrun :
    genConfigurationDoc toy_to_string
      [("explorer.root", def_string); ("explorer.kinds", def_array)]
    = Ok [mkRow "explorer.root" "Root" (Some (JStr "string")) (Some (JStr "`[empty]`"));
          mkRow "explorer.kinds" "" (Some (JStr (dquote +:+ "a" +:+ dquote +:+ " | "
                                                   +:+ dquote +:+ "b" +:+ dquote)))
                None]) by reflexivity.
  split; [exact Hrun|].
  exact (proj1 (X15_genConfigurationDoc_rows toy_to_string _ _ Hrun)).
Defined.

Lemma X16_falsy_default_doc_is_ignored_witness :
  d_default_doc def_string = Some (JStr "")
  ∧ truthy (JStr "") = false
  ∧ default_of def_string = Some (JStr "`[empty]`").
Proof.
  split; [reflexivity|]. split; [reflexivity|].
  apply (X16_falsy_default_doc_is_ignored def_string (JStr "") eq_refl eq_refl).
  reflexivity.
Defined.

Lemma X17_main_unsupported_property_writes_nothing_witness :
  genType toy_to_string "explorer.odd" def_bare = Err (NotSupported "explorer.odd")
  ∧ main toy_regexp toy_stringify toy_to_string
         ([("explorer.root", def_string)] ++ ("explorer.odd", def_bare) :: [])
         (<["readme.md" := readme_mid]> ∅)
    = (Err (NotSupported "explorer.odd"), <["readme.md" := readme_mid]> ∅).
Proof.
  split; [reflexivity|].
  apply (X17_main_unsupported_property_writes_nothing
           toy_regexp toy_stringify toy_to_string
           [("explorer.root", def_string)] "explorer.odd" def_bare []).
  - repeat constructor. simpl. by eexists.
  - reflexivity.
Defined.

Lemma X14_genType_property_only_names_error_witness :
  genType toy_to_string "a" def_array = Ok (dquote +:+ "a" +:+ dquote +:+ " | "
                                             +:+ dquote +:+ "b" +:+ dquote)
  ∧ genType toy_to_string "b" def_array = Ok (dquote +:+ "a" +:+ dquote +:+ " | "
                                               +:+ dquote +:+ "b" +:+ dquote).
Proof.
  assert (Ha : genType toy_to_string "a" def_array
               = Ok (dquote +:+ "a" +:+ dquote +:+ " | " +:+ dquote +:+ "b" +:+ dquote))
    by reflexivity.
  split; [exact Ha|].
  exact (proj1 (proj2 (X14_genType_property_only_names_error
                         toy_to_string "a" "b" def_array)) _ Ha).
Defined.

End GenDocFacts.
